(** * A shallow embedding of the C-style macro preprocessor
      ([static_site_generator_machine.py], class [Preprocessor])

    Text is modelled as [list ascii]: Python's [str] restricted to the
    code points below 256, each classified as Python classifies it
    ([str.isspace], and [\s] and [\w] of a [str] pattern).  The
    preprocessor object is a record that is threaded
    through every method; exceptions are the [Err] results of a small
    state-and-error monad, which keeps the state reached when the exception
    was raised, as the Python object does. *)

From Stdlib Require Import ZArith List Ascii String Bool Lia Sorted.
From stdpp Require Import base list strings gmap.
Import ListNotations.

Local Open Scope char_scope.
Local Open Scope list_scope.

(** ** Python's [str] operations used by the source *)

Module Py.

Abbreviation str := (list ascii).

(** A string literal of the source. *)
Definition lit (s : string) : str := list_ascii_of_string s.

Definition eqc (a b : ascii) : bool := Ascii.eqb a b.

(** [ch.isspace()] on the code points below 256: TAB, LF, VT, FF, CR, the
    four separators FS, GS, RS, US, the space, NEL (133) and the no-break
    space (160). *)
Definition isspace (c : ascii) : bool :=
  let n := nat_of_ascii c in
  ((9 <=? n)%nat && (n <=? 13)%nat) || ((28 <=? n)%nat && (n <=? 32)%nat)
  || (n =? 133)%nat || (n =? 160)%nat.

Fixpoint lstrip (s : str) : str :=
  match s with
  | c :: s' => if isspace c then lstrip s' else s
  | [] => []
  end.

Definition rstrip (s : str) : str := rev (lstrip (rev s)).

Definition strip (s : str) : str := lstrip (rstrip s).

(** [s.split(sep)] for a one-character separator: never the empty list. *)
Fixpoint split (sep : ascii) (s : str) : list str :=
  match s with
  | [] => [[]]
  | c :: s' =>
      if eqc c sep then [] :: split sep s'
      else match split sep s' with
           | h :: t => (c :: h) :: t
           | [] => [[c]]
           end
  end.

(** [sep.join(parts)] *)
Fixpoint join (sep : str) (parts : list str) : str :=
  match parts with
  | [] => []
  | [p] => p
  | p :: ps => p ++ sep ++ join sep ps
  end.

(** [s.startswith(p)]; on success the remainder is returned as well. *)
Fixpoint strip_prefix (p s : str) : option str :=
  match p, s with
  | [], _ => Some s
  | a :: p', b :: s' => if eqc a b then strip_prefix p' s' else None
  | _ :: _, [] => None
  end.

Definition startswith (s p : str) : bool :=
  match strip_prefix p s with Some _ => true | None => false end.

(** [c in s] for a character [c]. *)
Definition contains (c : ascii) (s : str) : bool := existsb (eqc c) s.

(** [s[:s.rindex(c)]], the text before the last [c]; [None] is Python's
    [ValueError], which the source avoids by testing [c in s] first. *)
Fixpoint before_last (c : ascii) (s : str) : option str :=
  match s with
  | [] => None
  | a :: s' =>
      match before_last c s' with
      | Some r => Some (a :: r)
      | None => if eqc a c then Some [] else None
      end
  end.

Definition nl : ascii := "010".

End Py.

Import Py.

(** ** The regular expressions of the source

    Each pattern of the source is embedded as the matcher that Python's
    backtracking search computes for it.  The patterns are simple enough
    that every greedy run is followed by a character outside the run's
    class, so giving back characters of a run never helps, except in
    [#include], where [(.+)] gives back up to the last closing delimiter. *)

Module Re.

(** [\s] of a [str] pattern agrees with [str.isspace]. *)
Definition is_s (c : ascii) : bool := isspace c.

(** [\w] of a [str] pattern is [ch.isalnum()] or the underscore.  Below 256
    these are the ASCII digits and letters, the underscore, and in the upper
    half the ordinal indicators (170, 186), the superscript digits (178,
    179, 185), the micro sign (181), the fractions (188 to 190) and the
    letters from 192 on, the multiplication sign (215) and the division
    sign (247) excepted. *)
Definition is_w (c : ascii) : bool :=
  let n := nat_of_ascii c in
  ((48 <=? n)%nat && (n <=? 57)%nat) || ((65 <=? n)%nat && (n <=? 90)%nat)
  || ((97 <=? n)%nat && (n <=? 122)%nat) || (n =? 95)%nat
  || (n =? 170)%nat || ((178 <=? n)%nat && (n <=? 179)%nat)
  || (n =? 181)%nat || ((185 <=? n)%nat && (n <=? 186)%nat)
  || ((188 <=? n)%nat && (n <=? 190)%nat)
  || ((192 <=? n)%nat && (n <=? 214)%nat)
  || ((216 <=? n)%nat && (n <=? 246)%nat)
  || ((248 <=? n)%nat && (n <=? 255)%nat).

(** A greedy run [C*] of a character class, and what follows it. *)
Fixpoint span (p : ascii -> bool) (s : str) : str * str :=
  match s with
  | c :: s' => if p c then let (a, b) := span p s' in (c :: a, b) else ([], s)
  | [] => ([], [])
  end.

(** The text before the last character of [s] that satisfies [p]. *)
Fixpoint before_last_of (p : ascii -> bool) (s : str) : option str :=
  match s with
  | [] => None
  | a :: s' =>
      match before_last_of p s' with
      | Some r => Some (a :: r)
      | None => if p a then Some [] else None
      end
  end.

(** The double quote, written by its code. *)
Definition dquote : ascii := "034".

Definition is_delim (c : ascii) : bool := eqc c "<" || eqc c dquote.

Definition is_close (c : ascii) : bool := eqc c ">" || eqc c dquote.

(** [re.match(r'#include\s*[<Q](.+)[>Q]', line)] with [Q] the double
    quote, returning [group(1)].  The dot is any character but the
    newline; [(.+)] is greedy, so the group ends just before the last
    closing delimiter of the run, and is not empty. *)
Definition match_include (line : str) : option str :=
  match strip_prefix (lit "#include") line with
  | None => None
  | Some r =>
      match snd (span is_s r) with
      | c :: r' =>
          if is_delim c then
            match before_last_of is_close (fst (span (fun x => negb (eqc x nl)) r')) with
            | Some [] => None
            | g => g
            end
          else None
      | [] => None
      end
  end.

Definition is_param_char (c : ascii) : bool := is_w c || is_s c || eqc c ",".

(** [re.match(pattern, line)] for the pattern that reads, in verbose
    notation, [#define \s+ (\w+) (?: \( ( [\w\s,]* ) \) )? \s* \(], returning
    [match.groups()]: the name and the parameter text, [None] when the
    optional group took no part in the match.  The optional group is tried
    first; when it or what follows it fails, the match resumes right after
    the name. *)
Definition match_define (line : str) : option (str * option str) :=
  match strip_prefix (lit "#define") line with
  | None => None
  | Some r =>
      match span is_s r with
      | ([], _) => None
      | (_ :: _, r1) =>
          match span is_w r1 with
          | ([], _) => None
          | ((_ :: _) as name, r2) =>
              let with_group :=
                match r2 with
                | "(" :: r3 =>
                    let (ps, r4) := span is_param_char r3 in
                    match r4 with
                    | ")" :: r5 =>
                        match snd (span is_s r5) with
                        | "(" :: _ => Some (name, Some ps)
                        | _ => None
                        end
                    | _ => None
                    end
                | _ => None
                end in
              match with_group with
              | Some g => Some g
              | None =>
                  match snd (span is_s r2) with
                  | "(" :: _ => Some (name, None)
                  | _ => None
                  end
              end
          end
      end
  end.

(** [re.match(directive + r'\s+(\w+)', line)] for [#ifdef], [#ifndef] and
    [#undef], returning [group(1)]. *)
Definition match_symbol (directive : str) (line : str) : option str :=
  match strip_prefix directive line with
  | None => None
  | Some r =>
      match span is_s r with
      | ([], _) => None
      | (_ :: _, r1) =>
          match fst (span is_w r1) with
          | [] => None
          | name => Some name
          end
      end
  end.

(** [re.match(r'(\w+)\s*\(', line)], returning [group(1)]. *)
Definition match_call_head (line : str) : option str :=
  match span is_w line with
  | ([], _) => None
  | ((_ :: _) as name, r) =>
      match snd (span is_s r) with
      | "(" :: _ => Some name
      | _ => None
      end
  end.

(** The tail of the macro-call pattern, in verbose notation
    [( (?: [^()]* | \( [^()]* \) )* ) \)]: text with at most one level of
    balanced parentheses, up to the closing parenthesis.  A closing
    parenthesis can only end the group or an inner pair, so the match is
    unique.  Returns the group and the text after the match; [inner] tells
    that an inner parenthesis is open. *)
Fixpoint call_args (inner : bool) (s : str) : option (str * str) :=
  match s with
  | [] => None
  | c :: s' =>
      if eqc c "(" then
        if inner then None
        else match call_args true s' with
             | Some (g, r) => Some (c :: g, r)
             | None => None
             end
      else if eqc c ")" then
        if inner then
          match call_args false s' with
          | Some (g, r) => Some (c :: g, r)
          | None => None
          end
        else Some ([], s')
      else match call_args inner s' with
           | Some (g, r) => Some (c :: g, r)
           | None => None
           end
  end.

(** A match of [NAME \s* \( ( (?: [^()]* | \( [^()]* \) )* ) \)] (verbose
    notation) at the start of [s]. *)
Definition match_call_at (name : str) (s : str) : option (str * str) :=
  match strip_prefix name s with
  | None => None
  | Some r =>
      match snd (span is_s r) with
      | "(" :: r' => call_args false r'
      | _ => None
      end
  end.

(** [re.search(pattern, line)] for the macro-call pattern of [macro_name]:
    the leftmost match, as [(line[:match.start()], match.group(1),
    line[match.end():])].  Macro names come from [(\w+)], so the name is a
    literal of the pattern. *)
Fixpoint search_call (name : str) (s : str) : option (str * str * str) :=
  match match_call_at name s with
  | Some (g, r) => Some ([], g, r)
  | None =>
      match s with
      | [] => None
      | c :: s' =>
          match search_call name s' with
          | Some (b, g, r) => Some (c :: b, g, r)
          | None => None
          end
      end
  end.

(** *** [re.sub] with a literal pattern

    [expand_macro] builds the pattern [\{ re.escape(param) \}], which matches
    the text [{param}] literally and has no group.  The replacement is a
    template: [re.sub] reads its backslash escapes before it looks for a
    match.  The reading below is CPython's [parse_template] for a pattern
    without groups; a failure is the [re.error] or [IndexError] it raises.
    A replacement without backslash is read as itself by every version of
    the library.  The one escape on which versions differ is the group
    reference by name, [\g<...>]: the reading below is that of CPython
    3.12 and later, where the name of group 0 is made of ASCII digits (all
    of them zero); up to 3.11 every name that [int] reads as zero is taken
    as well, such as a zero with a sign, with whitespace around it or with
    an underscore between its digits. *)

Inductive titem :=
| TChar (c : ascii)
| TMatch.

Definition is_digit (c : ascii) : bool :=
  let n := nat_of_ascii c in (48 <=? n)%nat && (n <=? 57)%nat.

Definition is_octdigit (c : ascii) : bool :=
  let n := nat_of_ascii c in (48 <=? n)%nat && (n <=? 55)%nat.

Definition is_letter (c : ascii) : bool :=
  let n := nat_of_ascii c in
  ((65 <=? n)%nat && (n <=? 90)%nat) || ((97 <=? n)%nat && (n <=? 122)%nat).

Definition digit_val (c : ascii) : nat := nat_of_ascii c - 48.

(** The table [ESCAPES] of the template reader. *)
Definition escape (c : ascii) : option ascii :=
  if eqc c "a" then Some "007"
  else if eqc c "b" then Some "008"
  else if eqc c "f" then Some "012"
  else if eqc c "n" then Some "010"
  else if eqc c "r" then Some "013"
  else if eqc c "t" then Some "009"
  else if eqc c "v" then Some "011"
  else if eqc c "\" then Some "\"
  else None.

Definition more (i : titem) (r : option (list titem)) : option (list titem) :=
  match r with Some t => Some (i :: t) | None => None end.

(** A step consumes at least one character, so [length s] steps suffice. *)
Fixpoint parse_template_from (fuel : nat) (s : str) : option (list titem) :=
  match s, fuel with
  | [], _ => Some []
  | _ :: _, O => None
  | c :: s1, S fuel' =>
      if negb (eqc c "\") then more (TChar c) (parse_template_from fuel' s1)
      else
        match s1 with
        | [] => None
        | e :: s2 =>
            if eqc e "g" then
              (* \g<name>: only group 0, the whole match, exists *)
              match s2 with
              | "<" :: s3 =>
                  match span (fun x => negb (eqc x ">")) s3 with
                  | ((_ :: _) as name, ">" :: s5) =>
                      if forallb (eqc "0") name
                      then more TMatch (parse_template_from fuel' s5)
                      else None
                  | _ => None
                  end
              | _ => None
              end
            else if eqc e "0" then
              (* \0 and up to two more octal digits *)
              match s2 with
              | d1 :: t1 =>
                  if is_octdigit d1 then
                    match t1 with
                    | d2 :: t2 =>
                        if is_octdigit d2
                        then more (TChar (ascii_of_nat (8 * digit_val d1 + digit_val d2)))
                               (parse_template_from fuel' t2)
                        else more (TChar (ascii_of_nat (digit_val d1)))
                               (parse_template_from fuel' t1)
                    | [] => Some [TChar (ascii_of_nat (digit_val d1))]
                    end
                  else more (TChar "000") (parse_template_from fuel' s2)
              | [] => Some [TChar "000"]
              end
            else if is_digit e then
              (* three octal digits are a character, anything else is a
                 reference to a group that the pattern does not have *)
              match s2 with
              | d1 :: d2 :: s3 =>
                  if is_octdigit e && is_octdigit d1 && is_octdigit d2 then
                    let v := 64 * digit_val e + 8 * digit_val d1 + digit_val d2 in
                    if (v <=? 255)%nat
                    then more (TChar (ascii_of_nat v)) (parse_template_from fuel' s3)
                    else None
                  else None
              | _ => None
              end
            else
              match escape e with
              | Some ch => more (TChar ch) (parse_template_from fuel' s2)
              | None =>
                  if is_letter e then None
                  else more (TChar c) (more (TChar e) (parse_template_from fuel' s2))
              end
        end
  end.

Definition parse_template (repl : str) : option (list titem) :=
  parse_template_from (length repl) repl.

(** The text a template stands for at a match [m]. *)
Definition expand_template (t : list titem) (m : str) : str :=
  flat_map (fun i => match i with TChar c => [c] | TMatch => m end) t.

(** Replace the leftmost non-overlapping occurrences of the non-empty text
    [pat] by [by_]; [skip] counts the characters of a match still to pass. *)
Fixpoint replace_from (pat by_ : str) (skip : nat) (s : str) : str :=
  match s with
  | [] => []
  | c :: s' =>
      match skip with
      | S k => replace_from pat by_ k s'
      | O =>
          match strip_prefix pat s with
          | Some _ => by_ ++ replace_from pat by_ (length pat - 1) s'
          | None => c :: replace_from pat by_ 0 s'
          end
      end
  end.

(** [re.sub(r'\{' + re.escape(param) + r'\}', repl, s)] *)
Definition sub_placeholder (param repl s : str) : option str :=
  let pat := "{" :: param ++ ["}"] in
  match parse_template repl with
  | None => None
  | Some t => Some (replace_from pat (expand_template t pat) 0 s)
  end.

End Re.

(** ** [os.path] on POSIX, as far as [#include] needs it *)

Module Path.

Definition all_slashes (s : str) : bool := forallb (eqc "/") s.

Fixpoint lstrip_slash (s : str) : str :=
  match s with
  | c :: s' => if eqc c "/" then lstrip_slash s' else s
  | [] => []
  end.

(** [os.path.dirname] *)
Definition dirname (p : str) : str :=
  let head := match before_last "/" p with
              | Some h => h ++ ["/"]
              | None => []
              end in
  match head with
  | [] => head
  | _ :: _ => if all_slashes head then head else rev (lstrip_slash (rev head))
  end.

(** [os.path.join(a, b)] *)
Definition join2 (a b : str) : str :=
  if startswith b ["/"] then b
  else match a with
       | [] => b
       | _ :: _ =>
           match last a with
           | Some "/" => a ++ b
           | _ => a ++ "/" :: b
           end
       end.

Definition dotdot : str := [".";"."].

Definition str_eqb (a b : str) : bool := bool_decide (a = b).

(** The loop of [os.path.normpath] over the components. *)
Definition norm_step (initial_slashes : nat) (new_comps : list str) (comp : str)
  : list str :=
  if str_eqb comp [] || str_eqb comp ["."] then new_comps
  else if negb (str_eqb comp dotdot)
          || ((initial_slashes =? 0)%nat && match new_comps with [] => true | _ => false end)
          || match new_comps with
             | [] => false
             | _ :: _ =>
                 match last new_comps with
                 | Some c => str_eqb c dotdot
                 | None => false
                 end
             end
       then new_comps ++ [comp]
       else removelast new_comps.

(** [os.path.normpath] *)
Definition normpath (path : str) : str :=
  match path with
  | [] => ["."]
  | _ :: _ =>
      let initial_slashes :=
        if startswith path ["/"] then
          if startswith path ["/";"/"] && negb (startswith path ["/";"/";"/"])
          then 2 else 1
        else 0 in
      let comps := fold_left (norm_step initial_slashes) (split "/" path) [] in
      let p := repeat "/" initial_slashes ++ join ["/"] comps in
      match p with [] => ["."] | _ :: _ => p end
  end.

(** [os.path.normpath(os.path.join(os.path.dirname(file), value))] *)
Definition include_path (file value : str) : str :=
  normpath (join2 (dirname file) value).

End Path.

Import Re Path.

(** ** Data model *)

(** The exceptions the preprocessor can end with: the five
    [PreprocessorError]s the source raises, the [OSError] of [open], and the
    error [re.sub] raises for a replacement it cannot read. *)
Inductive Error :=
| UnmatchedParentheses
| ArityMismatch (name : str) (expected got : nat) (file : str) (line : nat)
| CircularInclusion (paths : list str)
| ElseWithoutIf
| EndifWithoutIf
| FileNotFound (path : str)
| BadReplacement (repl : str).

(** How a call ends: with a value, with an exception, or cut off by the
    bound on the depth of nested includes that makes the model total. *)
Inductive outcome (A : Type) :=
| Done (a : A)
| Raise (e : Error)
| Timeout.

Arguments Done {A} a.
Arguments Raise {A} e.
Arguments Timeout {A}.

(** [TokenType] together with the [value] the token carries for it. *)
Inductive TokenType :=
| INCLUDE (value : str)
| DEFINE (name : str) (params : list str) (body : str)
| IFDEF (value : str)
| IFNDEF (value : str)
| ELSE
| ENDIF
| UNDEF (value : str)
| TEXT (value : str).

Record Token := {
  type : TokenType;
  line_number : nat;
  file : str
}.

Record Macro := {
  m_name : str;
  m_params : list str;
  m_body : str;
  m_file : str;
  m_line : nat
}.

(** A Python [dict] keyed by macro name, in insertion order (the order
    [process_text] iterates in). *)
Abbreviation dict := (list (str * Macro)).

Fixpoint dict_get (k : str) (d : dict) : option Macro :=
  match d with
  | [] => None
  | (k', v) :: d' => if str_eqb k k' then Some v else dict_get k d'
  end.

Definition dict_mem (k : str) (d : dict) : bool :=
  match dict_get k d with Some _ => true | None => false end.

(** [d[k] = v]: an existing key keeps its place, a new one goes last. *)
Fixpoint dict_set (k : str) (v : Macro) (d : dict) : dict :=
  match d with
  | [] => [(k, v)]
  | (k', v') :: d' =>
      if str_eqb k k' then (k, v) :: d' else (k', v') :: dict_set k v d'
  end.

(** [del d[k]] *)
Fixpoint dict_del (k : str) (d : dict) : dict :=
  match d with
  | [] => []
  | (k', v') :: d' =>
      if str_eqb k k' then dict_del k d' else (k', v') :: dict_del k d'
  end.

(** The attributes of a [Preprocessor] object.  Both stacks grow at the
    end, as the Python lists do. *)
Record Preprocessor := {
  include_stack : list str;
  macros : dict;
  defined_symbols : gset str;
  conditional_stack : list bool
}.

(** [Preprocessor()] *)
Definition init : Preprocessor :=
  {| include_stack := []; macros := []; defined_symbols := ∅;
     conditional_stack := [] |}.

Definition set_include_stack (f : list str -> list str) (self : Preprocessor) :=
  {| include_stack := f (include_stack self); macros := macros self;
     defined_symbols := defined_symbols self;
     conditional_stack := conditional_stack self |}.

Definition set_macros (f : dict -> dict) (self : Preprocessor) :=
  {| include_stack := include_stack self; macros := f (macros self);
     defined_symbols := defined_symbols self;
     conditional_stack := conditional_stack self |}.

Definition set_defined_symbols (f : gset str -> gset str) (self : Preprocessor) :=
  {| include_stack := include_stack self; macros := macros self;
     defined_symbols := f (defined_symbols self);
     conditional_stack := conditional_stack self |}.

Definition set_conditional_stack (f : list bool -> list bool) (self : Preprocessor) :=
  {| include_stack := include_stack self; macros := macros self;
     defined_symbols := defined_symbols self;
     conditional_stack := f (conditional_stack self) |}.

(** ** Methods that act on [self]: a state and exception monad *)

Definition M (A : Type) : Type := Preprocessor -> outcome A * Preprocessor.

Definition ret {A} (a : A) : M A := fun self => (Done a, self).

Definition bind {A B} (m : M A) (k : A -> M B) : M B :=
  fun self =>
    match m self with
    | (Done a, self') => k a self'
    | (Raise e, self') => (Raise e, self')
    | (Timeout, self') => (Timeout, self')
    end.

Definition raise {A} (e : Error) : M A := fun self => (Raise e, self).

Definition timeout {A} : M A := fun self => (Timeout, self).

Definition get : M Preprocessor := fun self => (Done self, self).

Definition modify (f : Preprocessor -> Preprocessor) : M unit :=
  fun self => (Done tt, f self).

(** A call that only reads [self]. *)
Definition lift {A} (o : outcome A) : M A := fun self => (o, self).

(** [try: m finally: h] *)
Definition try_finally {A} (m : M A) (h : Preprocessor -> Preprocessor) : M A :=
  fun self => let (o, self') := m self in (o, h self').

Notation "'let!' x ':=' c1 'in' c2" := (bind c1 (fun x => c2))
  (at level 10, x name, c1 at level 100, c2 at level 200).

(** [for x in l: f(x)] *)
Fixpoint for_each {A} (l : list A) (f : A -> M unit) : M unit :=
  match l with
  | [] => ret tt
  | x :: l' => let! _ := f x in for_each l' f
  end.

(** ** The lexer *)

Definition count_paren (paren_count : Z) (char : ascii) : Z :=
  if eqc char "(" then (paren_count + 1)%Z
  else if eqc char ")" then (paren_count - 1)%Z
  else paren_count.

(** The [while] loop of [collect_macro_body]; [rest] is [lines[i:]].
    [before_last] is [Some] exactly when the line holds a [)]. *)
Fixpoint collect_loop (rest : list str) (i : nat) (body : list str)
    (paren_count : Z) : outcome (str * nat) :=
  match rest with
  | [] => Done (join [nl] body, i)
  | l :: rest' =>
      let line := rstrip l in
      let paren_count := fold_left count_paren line paren_count in
      if (0 <? paren_count)%Z then
        collect_loop rest' (S i) (body ++ [line]) paren_count
      else
        match (paren_count =? 0)%Z, before_last ")" line with
        | true, Some upto => Done (join [nl] (body ++ [upto]), i)
        | _, _ => Raise UnmatchedParentheses
        end
  end.

Definition collect_macro_body (lines : list str) (start_idx : nat)
  : outcome (str * nat) :=
  collect_loop (drop start_idx lines) start_idx [] 0%Z.

Definition mk (t : TokenType) (i : nat) (filename : str) : Token :=
  {| type := t; line_number := i + 1; file := filename |}.

(** One turn of the [while] loop of [tokenize] at line [i]: the tokens so
    far and the next value of [i]. *)
Definition tokenize_line (macros : dict) (filename : str) (lines : list str)
    (i : nat) (raw : str) (tokens : list Token) : outcome (list Token * nat) :=
  let line := strip raw in
  let text := Done (tokens ++ [mk (TEXT line) i filename], i + 1) in
  let call_or_text :=
    if contains "(" line then
      match match_call_head line with
      | Some name =>
          if dict_mem name macros then
            match collect_macro_body (drop i lines) 0 with
            | Done (body, end_line) =>
                Done (tokens ++ [mk (TEXT (name ++ "(" :: body ++ [")"])) i filename],
                      i + (end_line + 1))
            | Raise e => Raise e
            | Timeout => Timeout
            end
          else text
      | None => text
      end
    else text in
  let symbol directive (tok : str -> TokenType) :=
    match match_symbol (lit directive) line with
    | Some sym => Done (tokens ++ [mk (tok sym) i filename], i + 1)
    | None => Done (tokens, i + 1)
    end in
  let after_define :=
    if startswith line (lit "#ifdef") then symbol "#ifdef"%string IFDEF
    else if startswith line (lit "#ifndef") then symbol "#ifndef"%string IFNDEF
    else if startswith line (lit "#else") then
      Done (tokens ++ [mk ELSE i filename], i + 1)
    else if startswith line (lit "#endif") then
      Done (tokens ++ [mk ENDIF i filename], i + 1)
    else if startswith line (lit "#undef") then symbol "#undef"%string UNDEF
    else call_or_text in
  match line with
  | [] => Done (tokens, i + 1)
  | _ :: _ =>
      if startswith line (lit "#include") then
        match match_include line with
        | Some path => Done (tokens ++ [mk (INCLUDE path) i filename], i + 1)
        | None => Done (tokens, i + 1)
        end
      else if startswith line (lit "#define") then
        match match_define line with
        | Some (name, params) =>
            let params :=
              match params with
              | Some ((_ :: _) as ps) => map strip (split "," ps)
              | _ => []
              end in
            match collect_macro_body lines i with
            | Done (body, end_line) =>
                Done (tokens ++ [mk (DEFINE name params body) i filename],
                      end_line + 1)
            | Raise e => Raise e
            | Timeout => Timeout
            end
        | None => after_define
        end
      else after_define
  end.

(** The [while i < len(lines)] loop; every turn moves [i] forward, so
    [length lines] turns suffice. *)
Fixpoint tokenize_loop (fuel : nat) (macros : dict) (filename : str)
    (lines : list str) (i : nat) (tokens : list Token) : outcome (list Token) :=
  match lines !! i with
  | None => Done tokens
  | Some raw =>
      match fuel with
      | O => Timeout
      | S fuel' =>
          match tokenize_line macros filename lines i raw tokens with
          | Done (tokens', i') => tokenize_loop fuel' macros filename lines i' tokens'
          | Raise e => Raise e
          | Timeout => Timeout
          end
      end
  end.

(** [tokenize]; it reads [self.macros] and nothing else of [self]. *)
Definition tokenize (macros : dict) (content filename : str) : outcome (list Token) :=
  let lines := split nl content in
  tokenize_loop (length lines) macros filename lines 0 [].

(** ** Macro arguments and expansion *)

Record arg_state := {
  args : list str;
  current_arg : str;
  paren_count : Z
}.

(** The body of [for char in line] in [parse_macro_args]. *)
Definition arg_char (a : arg_state) (char : ascii) : arg_state :=
  if eqc char "(" then
    {| args := args a; current_arg := current_arg a ++ [char];
       paren_count := (paren_count a + 1)%Z |}
  else if eqc char ")" then
    {| args := args a; current_arg := current_arg a ++ [char];
       paren_count := (paren_count a - 1)%Z |}
  else if eqc char "," && (paren_count a =? 0)%Z then
    match current_arg a with
    | _ :: _ =>
        {| args := args a ++ [strip (current_arg a)]; current_arg := [];
           paren_count := paren_count a |}
    | [] => a
    end
  else
    {| args := args a; current_arg := current_arg a ++ [char];
       paren_count := paren_count a |}.

Definition nonempty (s : str) : bool :=
  match s with [] => false | _ :: _ => true end.

Definition parse_macro_args (args_text : str) : list str :=
  let lines := split nl args_text in
  let a := fold_left (fun a line => fold_left arg_char (strip line) a) lines
             {| args := []; current_arg := []; paren_count := 0 |} in
  let args := match current_arg a with
              | _ :: _ => args a ++ [strip (current_arg a)]
              | [] => args a
              end in
  map strip (List.filter (fun arg => nonempty (strip arg)) args).

(** The [for param, arg in zip(...)] loop of [expand_macro]. *)
Fixpoint substitute (pairs : list (str * str)) (result : str) : outcome str :=
  match pairs with
  | [] => Done result
  | (param, arg) :: pairs' =>
      match sub_placeholder param arg result with
      | Some result' => substitute pairs' result'
      | None => Raise (BadReplacement arg)
      end
  end.

Definition expand_macro (macro : Macro) (args : list str) : outcome str :=
  if negb (length args =? length (m_params macro))%nat then
    Raise (ArityMismatch (m_name macro) (length (m_params macro)) (length args)
             (m_file macro) (m_line macro))
  else substitute (combine (m_params macro) args) (m_body macro).

(** The [for macro_name, macro in self.macros.items()] loop of
    [process_text]. *)
Fixpoint process_text_loop (items : dict) (line : str) : outcome str :=
  match items with
  | [] => Done line
  | (macro_name, macro) :: items' =>
      match search_call macro_name line with
      | Some (before, group1, after) =>
          match expand_macro macro (parse_macro_args group1) with
          | Done expansion => process_text_loop items' (before ++ expansion ++ after)
          | Raise e => Raise e
          | Timeout => Timeout
          end
      | None => process_text_loop items' line
      end
  end.

(** [process_text(token)] for a token whose value is [value]. *)
Definition process_text (self : Preprocessor) (value : str) : outcome str :=
  process_text_loop (macros self) value.

(** ** Conditionals, includes and the two passes *)

Definition handle_conditional_directive (token : Token) : M unit :=
  match type token with
  | IFDEF value =>
      modify (fun self =>
        set_conditional_stack
          (fun cs => cs ++ [bool_decide (value ∈ defined_symbols self)]) self)
  | IFNDEF value =>
      modify (fun self =>
        set_conditional_stack
          (fun cs => cs ++ [negb (bool_decide (value ∈ defined_symbols self))]) self)
  | ELSE =>
      let! self := get in
      match last (conditional_stack self) with
      | None => raise ElseWithoutIf
      | Some top =>
          modify (set_conditional_stack (fun cs => removelast cs ++ [negb top]))
      end
  | ENDIF =>
      let! self := get in
      match conditional_stack self with
      | [] => raise EndifWithoutIf
      | _ :: _ => modify (set_conditional_stack (fun cs => removelast cs))
      end
  | _ => ret tt
  end.

Section Files.

(** The files that can be opened: path to content, as [f.read()] returns
    it.  A file that can be opened under several spellings of its path has
    an entry under each of them. *)
Variable fs : gmap str str.

(** [with open(path) as f: f.read()] *)
Definition read_file (path : str) : M str :=
  match fs !! path with
  | Some content => ret content
  | None => raise (FileNotFound path)
  end.

(** [process_include_macros], with the recursive call to [collect_macros]
    passed in. *)
Definition process_include_macros_with
    (collect_macros : list Token -> str -> M unit)
    (token : Token) (value : str) (base_dir : str) : M unit :=
  let include_path := include_path (file token) value in
  let! self := get in
  if bool_decide (include_path ∈ include_stack self) then
    raise (CircularInclusion (include_stack self ++ [include_path]))
  else
    let! _ := modify (set_include_stack (fun st => st ++ [include_path])) in
    try_finally
      (let! included_content := read_file include_path in
       let! self := get in
       let! included_tokens :=
         lift (tokenize (macros self) included_content include_path) in
       collect_macros included_tokens base_dir)
      (set_include_stack (fun st => removelast st)).

(** The body of the [for] loop of [collect_macros]. *)
Definition collect_token (process_include_macros : Token -> str -> str -> M unit)
    (token : Token) (base_dir : str) : M unit :=
  match type token with
  | DEFINE name params body =>
      let! _ := modify (set_macros (dict_set name
                  {| m_name := name; m_params := params; m_body := body;
                     m_file := file token; m_line := line_number token |})) in
      modify (set_defined_symbols (fun d => d ∪ {[name]}))
  | INCLUDE value => process_include_macros token value base_dir
  | _ => ret tt
  end.

(** Pass 1.  [fuel] bounds the depth of nested includes. *)
Fixpoint collect_macros (fuel : nat) (tokens : list Token) (base_dir : str)
  : M unit :=
  for_each tokens (fun token =>
    collect_token
      (fun token value base_dir =>
         match fuel with
         | O => timeout
         | S fuel' =>
             process_include_macros_with (collect_macros fuel') token value base_dir
         end)
      token base_dir).

Definition process_include_macros (fuel : nat) (token : Token) (value : str)
    (base_dir : str) : M unit :=
  process_include_macros_with (collect_macros fuel) token value base_dir.

(** [process_include], with the recursive call to [process_tokens] passed
    in. *)
Definition process_include_with
    (process_tokens : list Token -> str -> M str)
    (token : Token) (value : str) (base_dir : str) : M str :=
  let include_path := include_path (file token) value in
  let! _ := modify (set_include_stack (fun st => st ++ [include_path])) in
  try_finally
    (let! included_content := read_file include_path in
     let! self := get in
     let! included_tokens :=
       lift (tokenize (macros self) included_content include_path) in
     process_tokens included_tokens base_dir)
    (set_include_stack (fun st => removelast st)).

(** [self.conditional_stack and not self.conditional_stack[-1]] *)
Definition suppressed (self : Preprocessor) : bool :=
  match last (conditional_stack self) with
  | Some top => negb top
  | None => false
  end.

(** One turn of the [while] loop of pass 2: what the token appends to
    [output], if anything. *)
Definition emit_token (process_include : Token -> str -> str -> M str)
    (token : Token) (base_dir : str) : M (option str) :=
  let! self := get in
  if suppressed self then
    match type token with
    | ENDIF | ELSE =>
        let! _ := handle_conditional_directive token in ret None
    | _ => ret None
    end
  else
    match type token with
    | INCLUDE value =>
        let! out := process_include token value base_dir in ret (Some out)
    | TEXT value =>
        let! out := lift (process_text self value) in ret (Some out)
    | IFDEF _ | IFNDEF _ | ELSE | ENDIF =>
        let! _ := handle_conditional_directive token in ret None
    | UNDEF value =>
        let! _ := modify (set_macros (fun m =>
                    if dict_mem value m then dict_del value m else m)) in
        let! _ := modify (set_defined_symbols (fun d => d ∖ {[value]})) in
        ret None
    | DEFINE _ _ _ => ret None
    end.

(** The [while] loop of pass 2. *)
Fixpoint emit_loop (process_include : Token -> str -> str -> M str)
    (tokens : list Token) (base_dir : str) (output : list str) : M (list str) :=
  match tokens with
  | [] => ret output
  | token :: tokens' =>
      let! out := emit_token process_include token base_dir in
      emit_loop process_include tokens' base_dir
        (match out with Some o => output ++ [o] | None => output end)
  end.

(** [process_tokens]: pass 1, then pass 2, then
    ['\n'.join(filter(None, output))]. *)
Fixpoint process_tokens (fuel : nat) (tokens : list Token) (base_dir : str)
  : M str :=
  let! _ := collect_macros fuel tokens base_dir in
  let! output :=
    emit_loop
      (fun token value base_dir =>
         match fuel with
         | O => timeout
         | S fuel' =>
             process_include_with (process_tokens fuel') token value base_dir
         end)
      tokens base_dir [] in
  ret (join [nl] (List.filter nonempty output)).

Definition process_include (fuel : nat) (token : Token) (value : str)
    (base_dir : str) : M str :=
  process_include_with (process_tokens fuel) token value base_dir.

Definition process_file (fuel : nat) (filepath : str) (base_dir : str) : M str :=
  let! content := read_file filepath in
  let! self := get in
  let! tokens := lift (tokenize (macros self) content filepath) in
  process_tokens fuel tokens base_dir.

End Files.

(** ** Definitions that follow the specification's words

    These are compared below with the definitions taken from the source. *)

(** Section 4.2, "split on top-level commas": the pieces of [s] between the
    commas met while the nesting counter is zero.  The counter starts at
    [depth], goes up at an opening and down at a closing parenthesis. *)
Fixpoint split_top_level (depth : Z) (s : str) : list str :=
  match s with
  | [] => [[]]
  | c :: s' =>
      if eqc c "," && (depth =? 0)%Z then [] :: split_top_level depth s'
      else match split_top_level (count_paren depth c) s' with
           | h :: t => (c :: h) :: t
           | [] => [[c]]
           end
  end.

(** Section 4.2, with every empty piece dropped: every line of the raw
    text is trimmed and the lines are put together, the text is split on
    top-level commas, each piece is trimmed, and every empty piece is
    dropped. *)
Definition spec_parse_args (args_text : str) : list str :=
  List.filter nonempty
    (map strip (split_top_level 0 (concat (map strip (split nl args_text))))).

(** Section 4.3, "every occurrence of the literal placeholder is replaced
    by the corresponding argument's text": a macro body seen as literal
    text with placeholders in it, and the body with all placeholders filled
    at once.  A placeholder that names no parameter stays as it is. *)
Inductive segment :=
| Lit (text : str)
| Hole (param : str).

Definition placeholder (param : str) : str := "{" :: param ++ ["}"].

Definition render (body : list segment) : str :=
  flat_map (fun s => match s with Lit t => t | Hole p => placeholder p end) body.

Fixpoint arg_of (param : str) (pairs : list (str * str)) : option str :=
  match pairs with
  | [] => None
  | (p, a) :: pairs' => if str_eqb param p then Some a else arg_of param pairs'
  end.

Definition fill (pairs : list (str * str)) (body : list segment) : str :=
  flat_map (fun s => match s with
                     | Lit t => t
                     | Hole p => match arg_of p pairs with
                                 | Some a => a
                                 | None => placeholder p
                                 end
                     end) body.

(** Section 8, "any include graph containing a cycle": the edges of the
    include graph, and a cycle in it.  File [p] includes [q] when [p] can
    be read and its tokens, under whatever macro table it is lexed, hold
    an [Include] that resolves to [q] relative to the directory of the
    including file. *)
Definition includes (fs : gmap str str) (p q : str) : Prop :=
  exists content,
    fs !! p = Some content
    /\ forall ms, exists tokens,
         tokenize ms content p = Done tokens
         /\ exists token value,
              In token tokens /\ type token = INCLUDE value
              /\ include_path (file token) value = q.

Definition include_cycle (fs : gmap str str) (cycle : list str) : Prop :=
  cycle <> []
  /\ forall i p q,
       cycle !! i = Some p -> cycle !! (S i mod length cycle) = Some q ->
       includes fs p q.

(** Section 7, "CircularInclude": the error lists the include stack plus
    the offending path, which is already on the stack.  The include stack
    at that moment is the stack [stack] the run of [entry] started with,
    followed by the files entered since: a chain of files of which the
    first is included by [entry] and each further one by the file before
    it.  The offending path is included by the last file of the chain.
    Here [q] is included by [p] when the tokens of [p], under some macro
    table, hold an [Include] that resolves to [q]. *)
Definition included_by (fs : gmap str str) (p q : str) : Prop :=
  exists content ms tokens token value,
    fs !! p = Some content
    /\ tokenize ms content p = Done tokens
    /\ In token tokens /\ type token = INCLUDE value
    /\ include_path (file token) value = q.

Fixpoint include_chain (fs : gmap str str) (p : str) (chain : list str) : Prop :=
  match chain with
  | [] => True
  | q :: chain' => included_by fs p q /\ include_chain fs q chain'
  end.

Definition circular_include_error (fs : gmap str str) (entry : str)
    (stack : list str) (e : Error) : Prop :=
  exists chain path,
    e = CircularInclusion (stack ++ chain ++ [path])
    /\ include_chain fs entry chain
    /\ included_by fs (List.last chain entry) path
    /\ In path (stack ++ chain).

(** Section 8, "regardless of which file in the cycle is the entry point":
    the entry point is a file of the cycle, or it includes one, as does a
    file of the cycle that is opened under another spelling of its path
    (the directory walk of [generate_site] spells [a.html] as
    [./a.html]). *)
Definition enters_cycle (fs : gmap str str) (cycle : list str) (entry : str) : Prop :=
  In entry cycle \/ exists q, In q cycle /\ includes fs entry q.

(** No other error can come first: every file can be lexed, under
    whatever macro table, and every [Include] in it names a file that can
    be read. *)
Definition tokens_resolve (fs : gmap str str) (tokens : list Token) : Prop :=
  forall token value,
    In token tokens -> type token = INCLUDE value ->
    is_Some (fs !! include_path (file token) value).

Definition all_files_lex (fs : gmap str str) : Prop :=
  forall p content ms,
    fs !! p = Some content ->
    exists tokens, tokenize ms content p = Done tokens /\ tokens_resolve fs tokens.

(** Section 4.3, "a regex matching [NAME(...)] with one level of balanced
    inner parentheses": the argument text of a call is made of characters
    other than parentheses and of groups [( ... )] without parentheses
    inside; a call of [name] at the start of [s] is the name, optional
    whitespace, and an argument text between parentheses.  The leftmost
    call of [name] in [line] is a call before whose place no call of
    [name] starts. *)
Definition no_paren (t : str) : bool :=
  forallb (fun c => negb (eqc c "(" || eqc c ")")) t.

Inductive args_text : str -> Prop :=
| args_end : args_text []
| args_char c s :
    eqc c "(" = false -> eqc c ")" = false -> args_text s -> args_text (c :: s)
| args_group t s :
    no_paren t = true -> args_text s -> args_text ("(" :: t ++ ")" :: s).

Definition call_at (name s : str) : Prop :=
  exists ws group1 after,
    s = name ++ ws ++ "(" :: group1 ++ ")" :: after
    /\ forallb is_s ws = true /\ args_text group1.

Definition leftmost_call (name line before ws group1 after : str) : Prop :=
  line = before ++ name ++ ws ++ "(" :: group1 ++ ")" :: after
  /\ forallb is_s ws = true /\ args_text group1
  /\ forall pre rest,
       line = pre ++ rest -> length pre < length before -> ~ call_at name rest.

Definition no_call (name line : str) : Prop :=
  forall pre rest, line = pre ++ rest -> ~ call_at name rest.

(** Claim C10, "a line beginning with [#include] that does not match the
    pattern": the test on the trimmed line; the lines of a file with every
    such line left blank; and the lexer's loop, started at line [j] with
    [tokens], coming to begin a turn at line [i], which it does not when
    line [i] lies inside the body of a [#define] or inside a call that
    runs over several lines. *)
Definition malformed_include (l : str) : bool :=
  startswith (strip l) (lit "#include")
  && match match_include (strip l) with Some _ => false | None => true end.

Definition blank_out (lines : list str) : list str :=
  map (fun l => if malformed_include l then [] else l) lines.

Inductive leads_to (ms : dict) (filename : str) (lines : list str) (i : nat)
  : nat -> list Token -> Prop :=
| leads_here tokens : leads_to ms filename lines i i tokens
| leads_step j raw tokens tokens' j' :
    lines !! j = Some raw ->
    tokenize_line ms filename lines j raw tokens = Done (tokens', j') ->
    leads_to ms filename lines i j' tokens' ->
    leads_to ms filename lines i j tokens.

Definition lexer_reaches (ms : dict) (filename : str) (lines : list str)
    (i : nat) : Prop :=
  leads_to ms filename lines i 0 [].

(** ** Auxiliary definitions for the proofs *)

(** The pieces of a split, the first one continuing the text [cur]. *)
Definition prepend (cur : str) (pieces : list str) : list str :=
  match pieces with
  | h :: t => (cur ++ h) :: t
  | [] => [cur]
  end.

(** What [parse_macro_args] returns once its loops have reached [a]. *)
Definition finish_args (a : arg_state) : list str :=
  map strip
    (List.filter (fun arg => nonempty (strip arg))
       (match current_arg a with
        | _ :: _ => args a ++ [strip (current_arg a)]
        | [] => args a
        end)).

(** *** Concrete inputs used as examples below *)

(** The file of end-to-end scenario 1. *)
Definition greet_file : str :=
  lit "#define GREET(who)(<p>hello, {who}</p>)" ++ nl :: lit "GREET(world)".

(** A macro called [A] whose expansion is a call of [B], and [B]. *)
Definition macro_A : Macro :=
  {| m_name := lit "A"; m_params := []; m_body := lit "B(1)";
     m_file := lit "a.html"; m_line := 1 |}.

Definition macro_B : Macro :=
  {| m_name := lit "B"; m_params := [lit "x"]; m_body := lit "<{x}>";
     m_file := lit "a.html"; m_line := 2 |}.

Definition with_macros (d : dict) : Preprocessor :=
  {| include_stack := []; macros := d;
     defined_symbols := list_to_set (map fst d); conditional_stack := [] |}.

(** The include handlers the two passes run with at a given [fuel]. *)
Definition pass1_include (fs : gmap str str) (fuel : nat)
  : Token -> str -> str -> M unit :=
  fun token value base_dir =>
    match fuel with
    | O => timeout
    | S fuel' =>
        process_include_macros_with fs (collect_macros fs fuel') token value base_dir
    end.

Definition pass2_include (fs : gmap str str) (fuel : nat)
  : Token -> str -> str -> M str :=
  fun token value base_dir =>
    match fuel with
    | O => timeout
    | S fuel' =>
        process_include_with fs (process_tokens fs fuel') token value base_dir
    end.

(** The file of claim C9. *)
Definition define_undef_file : str :=
  lit "#define X()(v)" ++ nl :: lit "#undef X".



(** The macro [M] of the spec's "placeholder locality" property. *)
Definition macro_M : Macro :=
  {| m_name := lit "M"; m_params := [lit "x"]; m_body := lit " x and {x} ";
     m_file := lit "a.html"; m_line := 1 |}.


(** A line the lexer takes for a directive: it begins, once trimmed, with
    one of the seven directive names. *)
Definition is_directive (line : str) : bool :=
  startswith line (lit "#include") || startswith line (lit "#define")
  || startswith line (lit "#ifdef") || startswith line (lit "#ifndef")
  || startswith line (lit "#else") || startswith line (lit "#endif")
  || startswith line (lit "#undef").

(** The text [s] holds the name followed by optional whitespace and an
    opening parenthesis: the head of the macro-call pattern. *)
Definition occurs_call (name s : str) : Prop :=
  exists pre ws post,
    s = pre ++ name ++ ws ++ "(" :: post /\ forallb is_s ws = true.

(** A line that is no directive and holds no call head of a macro of the
    table. *)
Definition plain_line (ms : dict) (l : str) : Prop :=
  is_directive (strip l) = false
  /\ forall name macro, In (name, macro) ms -> ~ occurs_call name l.

(** The tokens of plain lines: one [TEXT] token per non-blank line. *)
Fixpoint text_tokens (filename : str) (i : nat) (rest : list str) : list Token :=
  match rest with
  | [] => []
  | l :: rest' =>
      (if nonempty (strip l) then [mk (TEXT (strip l)) i filename] else [])
      ++ text_tokens filename (S i) rest'
  end.

Definition macro_GREET : Macro :=
  {| m_name := lit "GREET"; m_params := [lit "who"];
     m_body := lit "<p>hello, {who}</p>";
     m_file := lit "a.html"; m_line := 1 |}.

(** [occurs_call] and [plain_line] as tests that can be run. *)
Definition call_head_at (name s : str) : bool :=
  match strip_prefix name s with
  | Some r => match snd (span is_s r) with
              | "(" :: _ => true
              | _ => false
              end
  | None => false
  end.

Fixpoint occurs_callb (name s : str) : bool :=
  call_head_at name s
  || match s with
     | [] => false
     | _ :: s' => occurs_callb name s'
     end.

Definition plain_lineb (ms : dict) (l : str) : bool :=
  negb (is_directive (strip l))
  && forallb (fun item => negb (occurs_callb (fst item) l)) ms.

(** A file without directives and macro calls, with blank and padded
    lines. *)
Definition plain_file : str :=
  lit "  <h1>Title</h1>  " ++ nl :: nl :: lit "<p>GREET us (all)</p>".

(** The tokens hold an [Include] of a file of [cycle]. *)
Definition reaches (cycle : list str) (tokens : list Token) : Prop :=
  exists token value,
    In token tokens /\ type token = INCLUDE value
    /\ In (include_path (file token) value) cycle.

(** The files that can be read and are not on the include stack. *)
Definition unvisited (fs : gmap str str) (self : Preprocessor) : gset str :=
  dom fs ∖ list_to_set (include_stack self).

Definition push_include (q : str) (self : Preprocessor) : Preprocessor :=
  set_include_stack (fun st => st ++ [q]) self.

Definition pop_include (self : Preprocessor) : Preprocessor :=
  set_include_stack (fun st => removelast st) self.

(** Two files that include each other. *)
Definition cycle_fs : gmap str str :=
  <[ lit "a.html" := lit "<h1>a</h1>" ++ nl :: lit "#include <b.html>" ]>
    {[ lit "b.html" := lit "  #include <a.html>" ]}.

(** The same two files, the second one also under the spelling of the
    directory walk. *)
Definition cycle_fs_walk : gmap str str :=
  <[ lit "./b.html" := lit "  #include <a.html>" ]> cycle_fs.

(** The tokens are those of file [p] under some macro table. *)
Definition tokens_of (fs : gmap str str) (p : str) (tokens : list Token) : Prop :=
  exists content ms, fs !! p = Some content /\ tokenize ms content p = Done tokens.

(** A file that includes itself after a file that does not exist. *)
Definition dangling_fs : gmap str str :=
  {[ lit "a.html" := lit "#include <missing.html>" ++ nl :: lit "#include <a.html>" ]}.


(** A [#define] whose body holds a malformed [#include] line, and a call
    of the macro. *)
Definition include_in_body_file : str :=
  lit "#define M()(" ++ nl :: lit "#include index.html" ++ nl :: lit ")"
  ++ nl :: lit "M()".

(** Plain lines and malformed [#include] lines, as a test that can be
    run. *)
Definition mixed_lineb (ms : dict) (l : str) : bool :=
  malformed_include l || plain_lineb ms l.

Definition mixed_file : str :=
  lit "#include index.html" ++ nl :: lit "<p>x</p>" ++ nl :: lit "  #include"
  ++ nl :: nl :: lit "#include <>" ++ nl :: lit "last (one)".

(** ** Definitions for the further properties *)

(** The invariant of the data model: a name is a defined symbol exactly
    when it is a key of the macro table. *)
Definition table_matches_symbols (self : Preprocessor) : Prop :=
  forall k, k ∈ defined_symbols self <-> dict_mem k (macros self) = true.

(** The tokens pass 1 looks at. *)
Definition define_or_include (token : Token) : bool :=
  match type token with
  | DEFINE _ _ _ | INCLUDE _ => true
  | _ => false
  end.

Definition is_include (token : Token) : bool :=
  match type token with
  | INCLUDE _ => true
  | _ => false
  end.

Definition closes_region (token : Token) : bool :=
  match type token with
  | ELSE | ENDIF => true
  | _ => false
  end.

(** The macro a [Define] token stands for, and the last definition of a
    name in a token list. *)
Definition macro_of (token : Token) : option (str * Macro) :=
  match type token with
  | DEFINE name params body =>
      Some (name, {| m_name := name; m_params := params; m_body := body;
                     m_file := file token; m_line := line_number token |})
  | _ => None
  end.

Fixpoint last_define (name : str) (tokens : list Token) : option Macro :=
  match tokens with
  | [] => None
  | token :: tokens' =>
      match last_define name tokens' with
      | Some m => Some m
      | None =>
          match macro_of token with
          | Some (n, m) => if str_eqb name n then Some m else None
          | None => None
          end
      end
  end.

(** The parentheses opened at the start of [lines] stay open to the end:
    after every line the nesting counter is positive. *)
Fixpoint stays_open (paren_count : Z) (lines : list str) : bool :=
  match lines with
  | [] => true
  | l :: lines' =>
      let paren_count := fold_left count_paren (rstrip l) paren_count in
      (0 <? paren_count)%Z && stays_open paren_count lines'
  end.

(** The parameter list [tokenize] makes of the second group of the
    [#define] pattern. *)
Definition params_of (group2 : option str) : list str :=
  match group2 with
  | Some ((_ :: _) as ps) => map strip (split "," ps)
  | _ => []
  end.

(** An argument that can be written in a call as it is: not empty,
    without whitespace around it, and without comma, parenthesis or
    newline in it. *)
Definition plain_char (c : ascii) : bool :=
  negb (eqc c "," || eqc c "(" || eqc c ")" || eqc c nl).

Definition plain_arg (a : str) : bool :=
  nonempty a && str_eqb (strip a) a && forallb plain_char a.

(** A conditional on an undefined symbol around an include of a file that
    does not exist. *)
Definition guarded_include_tokens : list Token :=
  [mk (IFDEF (lit "UNDEFINED")) 0 (lit "a.html");
   mk (INCLUDE (lit "missing.html")) 1 (lit "a.html");
   mk ENDIF 2 (lit "a.html")].

(** * Properties *)

(** ** Basic facts about the string operations *)

Arguments eqc : simpl never.

Lemma eqc_eq (a b : ascii) : eqc a b = true <-> a = b.
Proof. apply Ascii.eqb_eq. Qed.

Lemma eqc_neq (a b : ascii) : eqc a b = false <-> a <> b.
Proof. apply Ascii.eqb_neq. Qed.

Lemma lstrip_idem (s : str) : lstrip (lstrip s) = lstrip s.
Proof.
  induction s as [|c s IH]; simpl; [reflexivity|].
  destruct (isspace c) eqn:E; [exact IH|]. simpl. rewrite E. reflexivity.
Qed.

Lemma lstrip_snoc (t : str) (c : ascii) :
  lstrip (t ++ [c]) =
  match lstrip t with
  | [] => if isspace c then [] else [c]
  | _ :: _ => lstrip t ++ [c]
  end.
Proof.
  induction t as [|a t IH]; simpl; [reflexivity|].
  destruct (isspace a); [exact IH | reflexivity].
Qed.

(** [rstrip] read from the front of the string. *)
Lemma rstrip_cons (c : ascii) (s : str) :
  rstrip (c :: s) =
  match rstrip s with
  | [] => if isspace c then [] else [c]
  | _ :: _ => c :: rstrip s
  end.
Proof.
  unfold rstrip. simpl. rewrite lstrip_snoc.
  destruct (lstrip (rev s)) as [|x t] eqn:E; simpl.
  - destruct (isspace c); reflexivity.
  - rewrite rev_app_distr. simpl.
    destruct (rev t ++ [x]) eqn:F; [destruct (rev t); discriminate|].
    reflexivity.
Qed.

(** [rstrip] commutes with [lstrip]: Python's [strip] takes both ends. *)
Lemma rstrip_lstrip (s : str) : rstrip (lstrip s) = lstrip (rstrip s).
Proof.
  induction s as [|c s IH]; [reflexivity|].
  rewrite rstrip_cons. simpl. destruct (isspace c) eqn:C.
  - rewrite IH. destruct (rstrip s); simpl; rewrite ?C; reflexivity.
  - rewrite rstrip_cons. destruct (rstrip s); simpl; rewrite C; reflexivity.
Qed.

Lemma rstrip_idem (s : str) : rstrip (rstrip s) = rstrip s.
Proof.
  unfold rstrip. rewrite rev_involutive, lstrip_idem. reflexivity.
Qed.

Lemma strip_idem (s : str) : strip (strip s) = strip s.
Proof.
  unfold strip. rewrite <- rstrip_lstrip, lstrip_idem.
  rewrite rstrip_lstrip, rstrip_idem. reflexivity.
Qed.

(** ** The argument parser (claim C7) *)

Lemma map_filter_strip (l : list str) :
  map strip (List.filter (fun arg => nonempty (strip arg)) l)
  = List.filter nonempty (map strip l).
Proof.
  induction l as [|x l IH]; simpl; [reflexivity|].
  destruct (nonempty (strip x)); simpl; rewrite IH; reflexivity.
Qed.

Lemma split_top_level_cons (d : Z) (s : str) :
  exists h t, split_top_level d s = h :: t.
Proof.
  revert d. induction s as [|c s IH]; intros d; simpl; [eauto|].
  destruct (eqc c "," && (d =? 0)%Z); [eauto|].
  destruct (IH (count_paren d c)) as [h [t E]]. rewrite E. eauto.
Qed.

Lemma prepend_nil (d : Z) (s : str) :
  prepend [] (split_top_level d s) = split_top_level d s.
Proof. destruct (split_top_level_cons d s) as [h [t E]]. rewrite E. reflexivity. Qed.

Lemma filter_strip_snoc (l : list str) (cur : str) :
  List.filter nonempty (map strip (l ++ [strip cur]))
  = List.filter nonempty (map strip l) ++ List.filter nonempty [strip cur].
Proof.
  rewrite map_app, List.filter_app. simpl. rewrite strip_idem. reflexivity.
Qed.

(** The character loop, from any state: the arguments found so far, then
    the pieces of the rest of the text, the first one continuing the
    argument being read. *)
Lemma arg_chars_spec (s : str) : forall a,
  finish_args (fold_left arg_char s a)
  = List.filter nonempty (map strip (args a))
    ++ List.filter nonempty
         (map strip (prepend (current_arg a) (split_top_level (paren_count a) s))).
Proof.
  induction s as [|c s IH]; intros [ar cur d]; simpl.
  - unfold finish_args. simpl. rewrite map_filter_strip.
    destruct cur as [|x cur]; simpl.
    + rewrite app_nil_r. reflexivity.
    + rewrite filter_strip_snoc. simpl. rewrite app_nil_r. reflexivity.
  - rewrite IH. clear IH. unfold arg_char, count_paren. simpl.
    destruct (eqc c "(") eqn:Eo.
    { apply eqc_eq in Eo. subst c. simpl.
      destruct (split_top_level_cons (d + 1) s) as [h [t E]]. rewrite E. simpl.
      rewrite <- app_assoc. reflexivity. }
    destruct (eqc c ")") eqn:Ec.
    { apply eqc_eq in Ec. subst c. simpl.
      destruct (split_top_level_cons (d - 1) s) as [h [t E]]. rewrite E. simpl.
      rewrite <- app_assoc. reflexivity. }
    destruct (eqc c "," && (d =? 0)%Z) eqn:Em.
    + destruct cur as [|x cur]; simpl.
      * rewrite prepend_nil. reflexivity.
      * rewrite prepend_nil, app_nil_r, filter_strip_snoc, <- app_assoc.
        simpl. destruct (nonempty (strip (x :: cur))); reflexivity.
    + simpl. destruct (split_top_level_cons d s) as [h [t E]]. rewrite E. simpl.
      rewrite <- app_assoc. reflexivity.
Qed.

Lemma arg_lines_concat (lines : list str) : forall a,
  fold_left (fun a line => fold_left arg_char (strip line) a) lines a
  = fold_left arg_char (concat (map strip lines)) a.
Proof.
  induction lines as [|l lines IH]; intros a; simpl; [reflexivity|].
  rewrite fold_left_app. apply IH.
Qed.

(** C7 (amended): the argument parser trims every line of the raw text and
    puts the lines together, splits the result on the commas met at
    parenthesis-nesting depth zero, trims each piece, and drops every empty
    piece, wherever it stands; it agrees with [spec_parse_args] on every
    text. *)
Theorem parse_macro_args_refines_spec (args_text : str) :
  parse_macro_args args_text = spec_parse_args args_text.
Proof.
  unfold parse_macro_args, spec_parse_args.
  rewrite arg_lines_concat.
  change (map strip (List.filter _ ?l)) with
    (finish_args (fold_left arg_char (concat (map strip (split nl args_text)))
       {| args := []; current_arg := []; paren_count := 0 |})).
  rewrite arg_chars_spec. simpl. rewrite prepend_nil. reflexivity.
Qed.

(** C7, as stated, fails: the empty argument between the two commas of
    [a,,b] is dropped, and so is a blank one. *)
Lemma parse_macro_args_drops_inner_empty :
  parse_macro_args (lit "a,,b") = [lit "a"; lit "b"]
  /\ parse_macro_args (lit "a, ,b") = [lit "a"; lit "b"]
  /\ parse_macro_args (lit "a,,b") <> [lit "a"; []; lit "b"].
Proof. split; [reflexivity | split; [reflexivity | discriminate]]. Qed.

(** ** The body of a [#define] (claim C1) *)

(** C1 (the code departs from the claim): in a fresh preprocessor, the file
    [#define GREET(who)(<p>hello, {who}</p>)], [GREET(world)] stores as the
    body of [GREET] the whole [#define] line up to its last closing
    parenthesis, because [collect_macro_body] counts parentheses from the
    start of that line; the output is the [#define] line with the argument
    filled in, not [<p>hello, world</p>] alone. *)
Theorem define_line_is_part_of_body :
  let r := process_file {[ lit "a.html" := greet_file ]} 0
             (lit "a.html") (lit ".") init in
  fst r = Done (lit "#define GREET(who)(<p>hello, world</p>")
  /\ m_body <$> dict_get (lit "GREET") (macros (snd r))
     = Some (lit "#define GREET(who)(<p>hello, {who}</p>").
Proof. vm_compute. split; reflexivity. Qed.

(** ** Conditionals inside a suppressed region (claim C2) *)

(** C2 (the code departs from the claim): with [U] undefined, in the token
    sequence [Ifdef(U)], [Ifdef(X)], [Endif], [Endif] the inner [Ifdef] is
    skipped without a push, the inner [Endif] pops the entry of the outer
    [Ifdef], and the outer [Endif] finds the stack empty and raises
    [#endif without matching #if]. *)
Theorem nested_ifdef_in_suppressed_region_unbalanced
    (fs : gmap str str) (fuel : nat) (U X base_dir filename : str) :
  process_tokens fs fuel
    [mk (IFDEF U) 0 filename; mk (IFDEF X) 1 filename;
     mk ENDIF 2 filename; mk ENDIF 3 filename] base_dir init
  = (Raise EndifWithoutIf, init).
Proof.
  destruct fuel; reflexivity.
Qed.

(** ** One pass over the macro table (claim C3) *)

Lemma process_text_loop_app (items1 items2 : dict) : forall line,
  process_text_loop (items1 ++ items2) line
  = match process_text_loop items1 line with
    | Done line1 => process_text_loop items2 line1
    | Raise e => Raise e
    | Timeout => Timeout
    end.
Proof.
  induction items1 as [|[n m] items1 IH]; intros line; simpl; [reflexivity|].
  destruct (search_call n line) as [[[b g] a]|]; [|apply IH].
  destruct (expand_macro m (parse_macro_args g)); [apply IH | reflexivity..].
Qed.

(** C3, as stated, fails: with [A] before [B] in the table, the call of [B]
    that the expansion of [A] brings in is expanded as well, and one text
    token can have the calls of two macros replaced. *)
Lemma inner_call_of_later_macro_is_expanded :
  let self := with_macros [(lit "A", macro_A); (lit "B", macro_B)] in
  expand_macro macro_A [] = Done (lit "B(1)")
  /\ process_text self (lit "A()") = Done (lit "<1>")
  /\ process_text self (lit "B(2) and A()") = Done (lit "<2> and B(1)").
Proof. vm_compute. repeat split. Qed.

(** ** Reasoning about the monad and the two passes *)

Lemma bind_done {A B} (m : M A) (k : A -> M B) self a self' :
  m self = (Done a, self') -> bind m k self = k a self'.
Proof. unfold bind. intros ->. reflexivity. Qed.

Lemma bind_inv_done {A B} (m : M A) (k : A -> M B) self b self' :
  bind m k self = (Done b, self') ->
  exists a self1, m self = (Done a, self1) /\ k a self1 = (Done b, self').
Proof.
  unfold bind. destruct (m self) as [[a| |] self1]; intros H;
    [eauto | discriminate..].
Qed.

Lemma collect_macros_eq fs fuel tokens base_dir :
  collect_macros fs fuel tokens base_dir
  = for_each tokens (fun token => collect_token (pass1_include fs fuel) token base_dir).
Proof. destruct fuel; reflexivity. Qed.

Lemma process_tokens_eq fs fuel tokens base_dir :
  process_tokens fs fuel tokens base_dir
  = (let! _ := collect_macros fs fuel tokens base_dir in
     let! output := emit_loop (pass2_include fs fuel) tokens base_dir [] in
     ret (join [nl] (List.filter nonempty output))).
Proof. destruct fuel; reflexivity. Qed.

Lemma for_each_app {A} (l1 l2 : list A) (f : A -> M unit) self :
  for_each (l1 ++ l2) f self
  = (let! _ := for_each l1 f in for_each l2 f) self.
Proof.
  revert self. induction l1 as [|x l1 IH]; intros self; simpl.
  - reflexivity.
  - unfold bind in *. destruct (f x self) as [[[]| |] self1]; [|reflexivity..].
    apply IH.
Qed.

Lemma emit_loop_app pi (l1 l2 : list Token) base_dir : forall output self,
  emit_loop pi (l1 ++ l2) base_dir output self
  = (let! output1 := emit_loop pi l1 base_dir output in
     emit_loop pi l2 base_dir output1) self.
Proof.
  induction l1 as [|t l1 IH]; intros output self; simpl.
  - reflexivity.
  - unfold bind in *. destruct (emit_token pi t base_dir self) as [[o| |] self1];
      [|reflexivity..].
    apply IH.
Qed.

Lemma suppressed_nonempty self :
  suppressed self = true -> conditional_stack self <> [].
Proof. unfold suppressed. destruct (conditional_stack self); [discriminate | discriminate]. Qed.

(** ** No check of the conditional stack at the end (claim C4) *)

(** C4 (amended): the end of processing does not look at the conditional
    stack.  Whenever a token stream is processed without error, the same
    stream followed by an [Ifdef] that nothing closes is processed without
    error too, with the same output; the stack is left non-empty in the
    preprocessor, where the next file finds it. *)
Theorem unterminated_conditional_returns_normally
    (fs : gmap str str) (fuel : nat) (tokens : list Token)
    (base_dir out sym filename : str) (i : nat) (self self' : Preprocessor) :
  process_tokens fs fuel tokens base_dir self = (Done out, self') ->
  exists self'',
    process_tokens fs fuel (tokens ++ [mk (IFDEF sym) i filename]) base_dir self
    = (Done out, self'')
    /\ conditional_stack self'' <> [].
Proof.
  rewrite !process_tokens_eq, !collect_macros_eq. intros H.
  apply bind_inv_done in H. destruct H as [[] [s1 [H1 H]]].
  apply bind_inv_done in H. destruct H as [output [s2 [H2 H]]].
  injection H as <- <-.
  destruct (suppressed s2) eqn:Sup.
  - exists s2. split; [|apply suppressed_nonempty; exact Sup].
    erewrite bind_done; cycle 1.
    { rewrite for_each_app. erewrite bind_done; [|exact H1]. reflexivity. }
    erewrite bind_done; cycle 1.
    { rewrite emit_loop_app. erewrite bind_done; [|exact H2].
      simpl. unfold emit_token. unfold bind, get. simpl. rewrite Sup. reflexivity. }
    reflexivity.
  - eexists. split.
    + erewrite bind_done; cycle 1.
      { rewrite for_each_app. erewrite bind_done; [|exact H1]. reflexivity. }
      erewrite bind_done; cycle 1.
      { rewrite emit_loop_app. erewrite bind_done; [|exact H2].
        simpl. unfold emit_token. unfold bind, get. simpl. rewrite Sup. reflexivity. }
      reflexivity.
    + simpl. intros E. apply app_eq_nil in E. destruct E; discriminate.
Qed.

Lemma unterminated_conditional_returns_normally_witness :
  exists self'',
    process_tokens ∅ 0 ([] ++ [mk (IFDEF (lit "X")) 0 (lit "a.html")]) (lit ".") init
    = (Done [], self'')
    /\ conditional_stack self'' <> [].
Proof.
  apply (unterminated_conditional_returns_normally ∅ 0 [] (lit ".") []
           (lit "X") (lit "a.html") 0 init init).
  reflexivity.
Defined.

(** C4, as stated, fails: a file that is the single line [#ifdef X] is
    processed without any error; it returns the empty output and leaves
    the stack [[false]] behind. *)
Lemma unterminated_ifdef_raises_nothing :
  let r := process_file {[ lit "a.html" := lit "#ifdef X" ]} 0
             (lit "a.html") (lit ".") init in
  fst r = Done [] /\ conditional_stack (snd r) = [false].
Proof. vm_compute. split; reflexivity. Qed.

(** ** [#define] followed by [#undef] (claim C9) *)

Lemma str_eqb_refl (k : str) : str_eqb k k = true.
Proof. unfold str_eqb. apply bool_decide_eq_true_2. reflexivity. Qed.








(** ** Placeholder substitution (claim C6) *)

Lemma strip_prefix_app (p s : str) : strip_prefix p (p ++ s) = Some s.
Proof.
  induction p as [|a p IH]; simpl; [reflexivity|].
  rewrite (proj2 (eqc_eq a a) eq_refl). exact IH.
Qed.

Lemma strip_prefix_inv (p s r : str) : strip_prefix p s = Some r -> s = p ++ r.
Proof.
  revert s. induction p as [|a p IH]; intros s; simpl.
  - intros [= ->]. reflexivity.
  - destruct s as [|b s]; [discriminate|].
    destruct (eqc a b) eqn:E; [|discriminate].
    apply eqc_eq in E. subst b. intros H. rewrite (IH _ H). reflexivity.
Qed.












Lemma fill_nil (body : list segment) : fill [] body = render body.
Proof. reflexivity. Qed.





(** ** Files without directives and macro calls (claim C8) *)

Lemma span_app (p : ascii -> bool) (s : str) :
  s = fst (span p s) ++ snd (span p s) /\ forallb p (fst (span p s)) = true.
Proof.
  induction s as [|c s [IH1 IH2]]; simpl; [split; reflexivity|].
  destruct (p c) eqn:E; [|split; reflexivity].
  destruct (span p s) as [a b]. simpl in *. rewrite E, IH2.
  split; [f_equal; exact IH1 | reflexivity].
Qed.

Lemma match_call_at_occurs (name s g r : str) :
  match_call_at name s = Some (g, r) -> occurs_call name s.
Proof.
  unfold match_call_at. destruct (strip_prefix name s) as [t|] eqn:E; [|discriminate].
  apply strip_prefix_inv in E. subst s.
  destruct (span_app is_s t) as [Et Ws].
  destruct (snd (span is_s t)) as [|c r'] eqn:F; [discriminate|].
  destruct (eqc c "(") eqn:C.
  - apply eqc_eq in C. subst c. intros _.
    exists [], (fst (span is_s t)), r'. split; [|exact Ws].
    simpl. f_equal. exact Et.
  - intros H. exfalso. revert H C. clear.
    destruct c as [[] [] [] [] [] [] [] []]; simpl; try discriminate.
Qed.

Lemma occurs_call_cons (name s : str) (c : ascii) :
  occurs_call name s -> occurs_call name (c :: s).
Proof.
  intros [pre [ws [post [E W]]]]. exists (c :: pre), ws, post.
  split; [simpl; f_equal; exact E | exact W].
Qed.

Lemma search_call_occurs (name s : str) (m : str * str * str) :
  search_call name s = Some m -> occurs_call name s.
Proof.
  revert m. induction s as [|c s IH]; intros m; simpl.
  - destruct (match_call_at name []) as [[g' r]|] eqn:E; [|discriminate].
    intros _. apply (match_call_at_occurs _ _ _ _ E).
  - destruct (match_call_at name (c :: s)) as [[g' r]|] eqn:E.
    + intros _. apply (match_call_at_occurs _ _ _ _ E).
    + destruct (search_call name s) as [m'|] eqn:F.
      * intros _. apply occurs_call_cons. apply (IH m'). reflexivity.
      * discriminate.
Qed.

Lemma occurs_call_app (name s u v : str) :
  occurs_call name s -> occurs_call name (u ++ s ++ v).
Proof.
  intros [pre [ws [post [E W]]]]. exists (u ++ pre), ws, (post ++ v).
  split; [|exact W]. subst s.
  repeat (rewrite <- app_assoc; simpl). reflexivity.
Qed.

Lemma lstrip_infix (s : str) : exists u, s = u ++ lstrip s.
Proof.
  induction s as [|c s [u E]]; simpl; [exists []; reflexivity|].
  destruct (isspace c); [exists (c :: u); simpl; f_equal; exact E | exists []; reflexivity].
Qed.

Lemma strip_infix (s : str) : exists u v, s = u ++ strip s ++ v.
Proof.
  unfold strip, rstrip.
  destruct (lstrip_infix (rev s)) as [v E].
  destruct (lstrip_infix (rev (lstrip (rev s)))) as [u F].
  exists u, (rev v). rewrite app_assoc, <- F, <- rev_app_distr, <- E.
  symmetry. apply rev_involutive.
Qed.

Lemma occurs_call_strip (name s : str) :
  occurs_call name (strip s) -> occurs_call name s.
Proof.
  intros H. destruct (strip_infix s) as [u [v E]]. rewrite E.
  apply occurs_call_app. exact H.
Qed.

Lemma match_call_head_occurs (line name : str) :
  match_call_head line = Some name -> occurs_call name line.
Proof.
  unfold match_call_head.
  destruct (span_app is_w line) as [E _].
  destruct (span is_w line) as [[|n0 n] r] eqn:S1; [discriminate|].
  simpl in E. destruct (span_app is_s r) as [F W].
  destruct (snd (span is_s r)) as [|c r'] eqn:S2; [discriminate|].
  destruct (eqc c "(") eqn:C.
  - apply eqc_eq in C. subst c. intros [= <-].
    exists [], (fst (span is_s r)), r'. split; [|exact W].
    rewrite E at 1. simpl. f_equal. f_equal. exact F.
  - intros H. exfalso. revert H C. clear.
    destruct c as [[] [] [] [] [] [] [] []]; simpl; try discriminate.
Qed.

Lemma dict_mem_in (k : str) (d : dict) :
  dict_mem k d = true -> exists v, In (k, v) d.
Proof.
  unfold dict_mem. induction d as [|[k' v'] d IH]; simpl; [discriminate|].
  unfold str_eqb. case_bool_decide as E.
  - subst k'. eauto.
  - intros H. destruct (IH H) as [v Hv]. eauto.
Qed.

Lemma tokenize_line_plain ms filename lines i raw tokens :
  plain_line ms raw ->
  tokenize_line ms filename lines i raw tokens
  = Done (tokens ++ (if nonempty (strip raw)
                     then [mk (TEXT (strip raw)) i filename] else []), i + 1).
Proof.
  intros [Hd Hc]. unfold tokenize_line.
  destruct (strip raw) as [|c l] eqn:L; [rewrite app_nil_r; reflexivity|].
  unfold is_directive in Hd.
  repeat (apply orb_false_elim in Hd; destruct Hd as [Hd ?]).
  repeat match goal with H : startswith _ _ = false |- _ => rewrite H; clear H end.
  simpl nonempty. cbv iota.
  destruct (contains "(" (c :: l)); [|reflexivity].
  destruct (match_call_head (c :: l)) as [name|] eqn:Hm; [|reflexivity].
  destruct (dict_mem name ms) eqn:Hin; [|reflexivity].
  exfalso. apply dict_mem_in in Hin. destruct Hin as [v Hv].
  apply (Hc name v Hv). apply occurs_call_strip. rewrite L.
  apply match_call_head_occurs. exact Hm.
Qed.

Lemma tokenize_loop_plain ms filename lines :
  Forall (plain_line ms) lines ->
  forall fuel i tokens,
    length lines <= fuel + i ->
    tokenize_loop fuel ms filename lines i tokens
    = Done (tokens ++ text_tokens filename i (drop i lines)).
Proof.
  intros Hp. induction fuel as [|fuel IH]; intros i tokens Hl.
  - simpl. rewrite lookup_ge_None_2 by lia.
    rewrite drop_ge by lia. rewrite app_nil_r. reflexivity.
  - simpl. destruct (lines !! i) as [raw|] eqn:Hi.
    + rewrite tokenize_line_plain
        by (rewrite Forall_forall in Hp; apply Hp;
            eapply list_elem_of_lookup_2; exact Hi).
      rewrite IH by lia. rewrite (drop_S _ _ _ Hi). simpl.
      rewrite <- app_assoc. replace (i + 1) with (S i) by lia. reflexivity.
    + apply lookup_ge_None_1 in Hi. rewrite drop_ge by lia.
      rewrite app_nil_r. reflexivity.
Qed.

Lemma collect_macros_text fs fuel filename base_dir self : forall lines i,
  collect_macros fs fuel (text_tokens filename i lines) base_dir self
  = (Done tt, self).
Proof.
  intros lines i. rewrite collect_macros_eq. revert i.
  induction lines as [|l lines IH]; intros i; simpl.
  - reflexivity.
  - destruct (nonempty (strip l)); simpl; [|apply IH].
    unfold bind. simpl. apply IH.
Qed.

Lemma process_text_loop_plain (items : dict) (line : str) :
  (forall name macro, In (name, macro) items -> ~ occurs_call name line) ->
  process_text_loop items line = Done line.
Proof.
  induction items as [|[n m] items IH]; intros H; simpl; [reflexivity|].
  destruct (search_call n line) as [r|] eqn:E.
  - exfalso. apply (H n m); [left; reflexivity|].
    apply (search_call_occurs _ _ _ E).
  - apply IH. intros name macro Hin. apply (H name macro). right. exact Hin.
Qed.

Lemma emit_loop_text pi filename base_dir self :
  suppressed self = false ->
  forall lines, Forall (plain_line (macros self)) lines ->
  forall i output,
    emit_loop pi (text_tokens filename i lines) base_dir output self
    = (Done (output ++ List.filter nonempty (map strip lines)), self).
Proof.
  intros Hs lines Hp. induction Hp as [|l lines [Hd Hc] _ IH]; intros i output; simpl.
  - rewrite app_nil_r. reflexivity.
  - destruct (nonempty (strip l)); simpl; [|apply IH].
    unfold emit_token, bind, get. simpl. rewrite Hs. simpl.
    unfold lift, process_text. rewrite process_text_loop_plain.
    + simpl. rewrite IH. rewrite <- app_assoc. reflexivity.
    + intros name macro Hin Ho. apply (Hc name macro Hin).
      apply occurs_call_strip. exact Ho.
Qed.

Lemma filter_nonempty_idem (l : list str) :
  List.filter nonempty (List.filter nonempty l) = List.filter nonempty l.
Proof.
  induction l as [|x l IH]; simpl; [reflexivity|].
  destruct (nonempty x) eqn:E; simpl; rewrite ?E, IH; reflexivity.
Qed.

(** C8 (amended): in a state whose conditional stack is not suppressing,
    for a file in which no line begins, once trimmed, with a directive
    name, and no line holds the name of a macro of the table followed by
    optional whitespace and an opening parenthesis, preprocessing returns
    the non-blank lines of the content, each trimmed of its leading and
    trailing whitespace, joined by newlines, and leaves the state as it
    was. *)
Theorem plain_file_passes_through_trimmed
    (fs : gmap str str) (fuel : nat) (filepath base_dir content : str)
    (self : Preprocessor) :
  fs !! filepath = Some content ->
  suppressed self = false ->
  Forall (plain_line (macros self)) (split nl content) ->
  process_file fs fuel filepath base_dir self
  = (Done (join [nl] (List.filter nonempty (map strip (split nl content)))), self).
Proof.
  intros Hf Hs Hp. unfold process_file, read_file. rewrite Hf.
  unfold bind at 1. unfold ret at 1. unfold bind at 1. unfold get at 1.
  unfold bind at 1. unfold lift at 1. unfold tokenize.
  rewrite (tokenize_loop_plain _ _ _ Hp) by lia. simpl app. rewrite drop_0.
  rewrite process_tokens_eq. unfold bind.
  rewrite collect_macros_text, (emit_loop_text _ _ _ _ Hs _ Hp). simpl app.
  unfold ret. rewrite filter_nonempty_idem. reflexivity.
Qed.

Lemma span_stop (p : ascii -> bool) (ws rest : str) (c : ascii) :
  forallb p ws = true -> p c = false -> span p (ws ++ c :: rest) = (ws, c :: rest).
Proof.
  intros W C. induction ws as [|a ws IH]; simpl in *.
  - rewrite C. reflexivity.
  - apply andb_true_iff in W. destruct W as [Wa W]. rewrite Wa, (IH W). reflexivity.
Qed.

Lemma occurs_callb_complete (name s : str) :
  occurs_call name s -> occurs_callb name s = true.
Proof.
  intros [pre [ws [post [-> W]]]]. induction pre as [|c pre IH]; simpl.
  - assert (call_head_at name (name ++ ws ++ "(" :: post) = true) as E.
    { unfold call_head_at. rewrite strip_prefix_app, (span_stop _ _ _ _ W); reflexivity. }
    destruct (name ++ ws ++ "(" :: post); simpl; rewrite E; reflexivity.
  - rewrite IH. apply orb_true_r.
Qed.

Lemma plain_lineb_sound (ms : dict) (l : str) :
  plain_lineb ms l = true -> plain_line ms l.
Proof.
  unfold plain_lineb, plain_line. intros H. apply andb_true_iff in H.
  destruct H as [Hd Hc]. split; [apply negb_true_iff; exact Hd|].
  intros name macro Hin Ho. rewrite forallb_forall in Hc.
  specialize (Hc _ Hin). simpl in Hc.
  rewrite (occurs_callb_complete _ _ Ho) in Hc. discriminate.
Qed.

Lemma plain_lines_sound (ms : dict) (lines : list str) :
  forallb (plain_lineb ms) lines = true -> Forall (plain_line ms) lines.
Proof.
  intros H. apply Forall_forall. intros l Hl. apply plain_lineb_sound.
  rewrite forallb_forall in H. apply H. apply list_elem_of_In. exact Hl.
Qed.

Lemma plain_file_passes_through_trimmed_witness :
  process_file {[ lit "a.html" := plain_file ]} 0 (lit "a.html") (lit ".")
    (with_macros [(lit "GREET", macro_GREET)])
  = (Done (lit "<h1>Title</h1>" ++ nl :: lit "<p>GREET us (all)</p>"),
     with_macros [(lit "GREET", macro_GREET)]).
Proof.
  apply (plain_file_passes_through_trimmed {[ lit "a.html" := plain_file ]} 0
           (lit "a.html") (lit ".") plain_file
           (with_macros [(lit "GREET", macro_GREET)])).
  - reflexivity.
  - reflexivity.
  - apply plain_lines_sound. reflexivity.
Defined.

(** C8, as stated, fails: every line is emitted without its leading and
    trailing whitespace; a macro name followed by a space and a parenthesis
    is a call although the text holds no [NAME(]; and in a state left
    suppressing by an earlier file nothing is emitted at all. *)
Lemma plain_file_not_preserved :
  fst (process_file {[ lit "a.html" := lit "  hello  " ]} 0
         (lit "a.html") (lit ".") init) = Done (lit "hello")
  /\ fst (process_file {[ lit "a.html" := lit "GREET (world)" ]} 0
            (lit "a.html") (lit ".") (with_macros [(lit "GREET", macro_GREET)]))
     = Done (lit "GREET(<p>hello, world</p>")
  /\ fst (process_file {[ lit "a.html" := lit "hello" ]} 0
            (lit "a.html") (lit ".") (set_conditional_stack (fun _ => [false]) init))
     = Done [].
Proof. vm_compute. repeat split. Qed.

(** ** The lexer is total *)

Lemma collect_loop_index (rest : list str) : forall i body pc,
  match collect_loop rest i body pc with
  | Done (_, j) => i <= j
  | Raise _ => True
  | Timeout => False
  end.
Proof.
  induction rest as [|l rest IH]; intros i body pc; simpl; [lia|].
  destruct (0 <? fold_left count_paren (rstrip l) pc)%Z.
  - specialize (IH (S i) (body ++ [rstrip l]) (fold_left count_paren (rstrip l) pc)).
    destruct (collect_loop rest (S i) _ _) as [[b j]| |]; [lia | exact I | exact IH].
  - destruct (fold_left count_paren (rstrip l) pc =? 0)%Z; [|exact I].
    destruct (before_last ")" (rstrip l)); [lia | exact I].
Qed.

Lemma collect_macro_body_index (lines : list str) (i : nat) :
  match collect_macro_body lines i with
  | Done (_, j) => i <= j
  | Raise _ => True
  | Timeout => False
  end.
Proof. apply collect_loop_index. Qed.

(** A turn of the lexer's loop never times out and moves forward. *)
Lemma tokenize_line_progress ms filename lines i raw tokens :
  match tokenize_line ms filename lines i raw tokens with
  | Done (_, j) => i < j
  | Raise _ => True
  | Timeout => False
  end.
Proof.
  unfold tokenize_line.
  pose proof (collect_macro_body_index lines i) as Hd.
  pose proof (collect_macro_body_index (drop i lines) 0) as Hc.
  destruct (strip raw) as [|c l]; [lia|].
  repeat match goal with
         | |- context [if ?b then _ else _] => destruct b
         | |- context [match match_include ?x with _ => _ end] => destruct (match_include x)
         | |- context [match match_define ?x with _ => _ end] =>
             destruct (match_define x) as [[? ?]|]
         | |- context [match match_symbol ?x ?y with _ => _ end] => destruct (match_symbol x y)
         | |- context [match match_call_head ?x with _ => _ end] => destruct (match_call_head x)
         | |- context [match collect_macro_body ?x ?y with _ => _ end] =>
             destruct (collect_macro_body x y) as [[? ?]| |]
         end; try lia; try exact I; try contradiction.
Qed.

Lemma tokenize_loop_total ms filename lines : forall fuel i tokens,
  length lines <= fuel + i ->
  tokenize_loop fuel ms filename lines i tokens <> Timeout.
Proof.
  induction fuel as [|fuel IH]; intros i tokens Hl; simpl.
  - rewrite lookup_ge_None_2 by lia. discriminate.
  - destruct (lines !! i) as [raw|]; [|discriminate].
    pose proof (tokenize_line_progress ms filename lines i raw tokens) as Hp.
    destruct (tokenize_line ms filename lines i raw tokens) as [[tokens' j]| |];
      [|discriminate|contradiction].
    apply IH. lia.
Qed.

(** [tokenize] ends with tokens or with an exception. *)
Lemma tokenize_total ms content filename :
  tokenize ms content filename <> Timeout.
Proof. apply tokenize_loop_total. lia. Qed.

(** ** Include cycles (claim C5) *)

Lemma process_include_macros_with_eq fs collect token value base_dir self :
  process_include_macros_with fs collect token value base_dir self
  = let q := include_path (file token) value in
    if bool_decide (q ∈ include_stack self) then
      (Raise (CircularInclusion (include_stack self ++ [q])), self)
    else
      match fs !! q with
      | None => (Raise (FileNotFound q), pop_include (push_include q self))
      | Some content =>
          match tokenize (macros self) content q with
          | Done tokens =>
              let r := collect tokens base_dir (push_include q self) in
              (fst r, pop_include (snd r))
          | Raise e => (Raise e, pop_include (push_include q self))
          | Timeout => (Timeout, pop_include (push_include q self))
          end
      end.
Proof.
  unfold process_include_macros_with, bind, get, modify, raise, try_finally,
    read_file, lift, ret. simpl.
  destruct (bool_decide _); [reflexivity|].
  destruct (fs !! _) as [content|]; simpl; [|reflexivity].
  destruct (tokenize _ _ _) as [tokens| |]; simpl; [|reflexivity..].
  destruct (collect tokens base_dir _); reflexivity.
Qed.

Lemma for_each_not_done {A} (l : list A) (f : A -> M unit) (x : A) :
  In x l -> (forall self, fst (f x self) <> Done tt) ->
  forall self, fst (for_each l f self) <> Done tt.
Proof.
  intros Hin Hx. induction l as [|y l IH]; [destruct Hin|]. intros self.
  simpl. unfold bind. destruct Hin as [->|Hin].
  - specialize (Hx self). destruct (f x self) as [[[]| |] s]; simpl in *;
      [contradiction | discriminate..].
  - destruct (f y self) as [[[]| |] s]; simpl; [apply IH; exact Hin | discriminate..].
Qed.

Lemma cycle_closed fs cycle p :
  include_cycle fs cycle -> In p cycle -> exists q, In q cycle /\ includes fs p q.
Proof.
  intros [Hne Hc] Hin. apply list_elem_of_In, list_elem_of_lookup in Hin.
  destruct Hin as [i Hi].
  assert (S i mod length cycle < length cycle) as Hlt.
  { apply Nat.mod_upper_bound. destruct cycle; [contradiction | simpl; lia]. }
  apply lookup_lt_is_Some_2 in Hlt. destruct Hlt as [q Hq].
  exists q. split; [|apply (Hc i p q Hi Hq)].
  apply list_elem_of_In. eapply list_elem_of_lookup_2. exact Hq.
Qed.

(** Pass 1 never succeeds on tokens that include a file of a cycle. *)
Lemma collect_macros_cycle_not_done fs cycle base_dir :
  include_cycle fs cycle ->
  forall fuel tokens self,
    reaches cycle tokens ->
    fst (collect_macros fs fuel tokens base_dir self) <> Done tt.
Proof.
  intros Hc. induction fuel as [|fuel IH]; intros tokens self
    (token & value & Hin & Hty & Hq); rewrite collect_macros_eq;
    apply (for_each_not_done _ _ token Hin); intros s;
    unfold collect_token; rewrite Hty; unfold pass1_include.
  - discriminate.
  - rewrite process_include_macros_with_eq. cbv zeta.
    destruct (bool_decide _); [discriminate|].
    destruct (cycle_closed _ _ _ Hc Hq) as (q' & Hq' & content & Hf & Hlex).
    rewrite Hf. destruct (Hlex (macros s)) as (tokens' & -> & token' & value' & H1 & H2 & H3).
    simpl. apply IH. exists token', value'. rewrite H3. auto.
Qed.

Lemma for_each_inv {A} (I : Preprocessor -> Prop) (P : outcome unit -> Prop)
    (l : list A) (f : A -> M unit) :
  P (Done tt) ->
  (forall x self, In x l -> I self ->
     (fst (f x self) = Done tt -> I (snd (f x self))) /\ P (fst (f x self))) ->
  forall self, I self ->
    (fst (for_each l f self) = Done tt -> I (snd (for_each l f self)))
    /\ P (fst (for_each l f self)).
Proof.
  intros HP. induction l as [|x l IH]; intros Hf self HI; simpl.
  - split; [intros _; exact HI | exact HP].
  - unfold bind. destruct (Hf x self (or_introl eq_refl) HI) as [H1 H2].
    destruct (f x self) as [[[]| |] s]; simpl in *.
    + apply IH; [|apply H1; reflexivity].
      intros y s' Hy. apply Hf. right. exact Hy.
    + split; [discriminate | exact H2].
    + split; [discriminate | exact H2].
Qed.

Lemma unvisited_push fs q self :
  is_Some (fs !! q) -> q ∉ include_stack self ->
  size (unvisited fs (push_include q self)) < size (unvisited fs self).
Proof.
  intros Hq Hn. apply subset_size. unfold unvisited, push_include. simpl.
  apply elem_of_dom in Hq. rewrite list_to_set_app_L. simpl.
  apply (strict_spec_alt _ _). split; [set_solver|].
  intros E. assert (q ∈ dom fs ∖ list_to_set (include_stack self)) as Hin
    by (apply elem_of_difference; split; [exact Hq | rewrite elem_of_list_to_set; exact Hn]).
  rewrite <- E in Hin. set_solver.
Qed.

(** Pass 1 gives the include stack back as it found it, and it ends when
    [fuel] exceeds the number of files that can still be entered. *)
Lemma collect_macros_ends fs base_dir : forall fuel tokens self,
  let r := collect_macros fs fuel tokens base_dir self in
  (fst r = Done tt -> include_stack (snd r) = include_stack self)
  /\ (size (unvisited fs self) < fuel -> fst r <> Timeout).
Proof.
  induction fuel as [|fuel IH]; intros tokens self; cbv zeta;
    rewrite collect_macros_eq;
    apply (for_each_inv (fun s => include_stack s = include_stack self)
             (fun o => size (unvisited fs self) < _ -> o <> Timeout));
    try reflexivity; try discriminate;
    intros token s _ Hs; unfold collect_token;
    destruct (type token) eqn:Hty; simpl;
      try (split; [intros _; exact Hs | discriminate]).
  - split; [discriminate | lia].
  - rewrite process_include_macros_with_eq. cbv zeta.
    case_bool_decide as Hst; [split; discriminate|].
    destruct (fs !! include_path (file token) value) as [content|] eqn:Hf;
      [|split; discriminate].
    pose proof (tokenize_total (macros s) content (include_path (file token) value)) as Ht.
    destruct (tokenize _ _ _) as [tokens'| |]; [|split; discriminate|contradiction].
    destruct (IH tokens' (push_include (include_path (file token) value) s)) as [H1 H2].
    simpl. split.
    + intros Hd. rewrite (H1 Hd). simpl. rewrite removelast_last. exact Hs.
    + intros Hsz. apply H2.
      assert (unvisited fs s = unvisited fs self) as E
        by (unfold unvisited; rewrite Hs; reflexivity).
      pose proof (unvisited_push fs (include_path (file token) value) s
                    (mk_is_Some _ _ Hf) Hst) as Hlt.
      rewrite E in Hlt. lia.
Qed.

Lemma last_default_irrel (l : list str) (x p q : str) :
  List.last (x :: l) p = List.last (x :: l) q.
Proof.
  revert x. induction l as [|y l IH]; intros x; [reflexivity|].
  change (List.last (y :: l) p = List.last (y :: l) q). apply IH.
Qed.

Lemma last_cons_default (chain : list str) (q p : str) :
  List.last (q :: chain) p = List.last chain q.
Proof.
  destruct chain as [|c chain]; [reflexivity|].
  change (List.last (c :: chain) p = List.last (c :: chain) q).
  apply last_default_irrel.
Qed.

(** When every file lexes and every include resolves, the only error of
    pass 1 over the tokens of a file is the circular inclusion, and it
    lists the include stack of that moment: the stack pass 1 started with,
    then the files entered since, then the offending path. *)
Lemma collect_macros_only_circular fs base_dir :
  all_files_lex fs ->
  forall fuel tokens self p,
    tokens_of fs p tokens ->
    tokens_resolve fs tokens ->
    match fst (collect_macros fs fuel tokens base_dir self) with
    | Raise e => circular_include_error fs p (include_stack self) e
    | _ => True
    end.
Proof.
  intros Hall. induction fuel as [|fuel IH]; intros tokens self p Htok Hres;
    rewrite collect_macros_eq;
    apply (for_each_inv (fun s => include_stack s = include_stack self)
             (fun o => match o with
                       | Raise e => circular_include_error fs p (include_stack self) e
                       | _ => True
                       end));
    try exact I; try reflexivity;
    intros token s Hin Hs; unfold collect_token;
    destruct (type token) eqn:Hty; simpl;
      try (split; [intros _; exact Hs | exact I]).
  rewrite process_include_macros_with_eq. cbv zeta.
  assert (included_by fs p (include_path (file token) value)) as Hinc.
  { destruct Htok as (content & ms & Hf & Ht).
    exists content, ms, tokens, token, value. auto. }
  case_bool_decide as Hst.
  { split; [discriminate|]. simpl. exists [], (include_path (file token) value).
    rewrite <- Hs. simpl. rewrite app_nil_r.
    repeat split; [exact Hinc | apply list_elem_of_In; exact Hst]. }
  destruct (Hres token value Hin Hty) as [content Hf]. rewrite Hf.
  destruct (Hall _ content (macros s) Hf) as (tokens' & Ht' & Hres').
  rewrite Ht'. simpl.
  destruct (collect_macros_ends fs base_dir fuel tokens'
              (push_include (include_path (file token) value) s)) as [Hstack _].
  split.
  - intros Hd. rewrite (Hstack Hd). simpl. rewrite removelast_last. exact Hs.
  - specialize (IH tokens' (push_include (include_path (file token) value) s)
                  (include_path (file token) value)
                  (ex_intro _ content (ex_intro _ (macros s) (conj Hf Ht'))) Hres').
    destruct (fst (collect_macros fs fuel tokens' base_dir _)) as [[]|e|];
      [exact I | | exact I].
    destruct IH as (chain & path & -> & Hch & Hlast & Hpath).
    exists (include_path (file token) value :: chain), path.
    simpl include_stack in *. rewrite Hs in *.
    rewrite last_cons_default. rewrite <- !app_assoc in *. simpl in *.
    repeat split; assumption.
Qed.

(** C5 (amended): when the entry point is a file of a cycle of the include
    graph, or includes one (as a file of the cycle does under the spelling
    [./name] of the directory walk), processing it ends, never with a
    result and never by running on: it raises an error, for every bound on
    the include depth above the number of files.  Whenever no other error
    can come first, that is whenever every file can be lexed and every
    include names a file that can be read, the error is the circular
    inclusion, and it lists the include stack of that moment (the stack
    the run started with, then the files entered since, each included by
    the one before it) plus the offending path, which is on that stack. *)
Theorem include_cycle_is_an_error
    (fs : gmap str str) (cycle : list str) (entry base_dir : str)
    (self : Preprocessor) (fuel : nat) :
  include_cycle fs cycle ->
  enters_cycle fs cycle entry ->
  size (dom fs) < fuel ->
  exists e,
    fst (process_file fs fuel entry base_dir self) = Raise e
    /\ (all_files_lex fs ->
        circular_include_error fs entry (include_stack self) e).
Proof.
  intros Hc Hin Hfuel.
  assert (exists q, In q cycle /\ includes fs entry q)
    as (q & Hq & content & Hf & Hlex).
  { destruct Hin as [Hin|Hin]; [apply (cycle_closed _ _ _ Hc Hin) | exact Hin]. }
  destruct (Hlex (macros self)) as (tokens & Ht & token & value & H1 & H2 & H3).
  unfold process_file, read_file. rewrite Hf.
  unfold bind at 1. unfold ret at 1. unfold bind at 1. unfold get at 1.
  unfold bind at 1. unfold lift at 1. rewrite Ht.
  rewrite process_tokens_eq. unfold bind at 1.
  pose proof (collect_macros_cycle_not_done fs cycle base_dir Hc fuel tokens self) as Hnd.
  destruct (collect_macros_ends fs base_dir fuel tokens self) as [_ Hnt].
  pose proof (fun H => collect_macros_only_circular fs base_dir H fuel tokens self entry
                         (ex_intro _ content (ex_intro _ (macros self) (conj Hf Ht))))
    as Hk.
  destruct (collect_macros fs fuel tokens base_dir self) as [[[]| e |] s]; simpl in *.
  - exfalso. apply Hnd; [|reflexivity]. exists token, value. rewrite H3. auto.
  - exists e. split; [reflexivity|]. intros Hall. apply (Hk Hall).
    destruct (Hall _ content (macros self) Hf) as (tokens' & Ht' & Hres).
    rewrite Ht in Ht'. injection Ht' as <-. exact Hres.
  - exfalso. apply Hnt; [|reflexivity].
    eapply Nat.le_lt_trans; [|exact Hfuel].
    apply subseteq_size. unfold unvisited. set_solver.
Qed.

Lemma cycle_fs_is_cycle : include_cycle cycle_fs [lit "a.html"; lit "b.html"].
Proof.
  split; [discriminate|]. intros [|[|i]] p q Hp Hq; simpl in Hp.
  - injection Hp as <-. injection Hq as <-.
    eexists. split; [reflexivity|]. intros ms. eexists. split; [reflexivity|].
    eexists _, _. split; [right; left; reflexivity|]. split; reflexivity.
  - injection Hp as <-. injection Hq as <-.
    eexists. split; [reflexivity|]. intros ms. eexists. split; [reflexivity|].
    eexists _, _. split; [left; reflexivity|]. split; reflexivity.
  - discriminate.
Qed.

Lemma cycle_fs_lexes : all_files_lex cycle_fs.
Proof.
  intros p content ms Hp. unfold cycle_fs in Hp.
  apply lookup_insert_Some in Hp. destruct Hp as [[<- <-]|[_ Hp]].
  - eexists. split; [reflexivity|]. intros token value [<-|[<-|[]]] Hty;
      [discriminate|]. injection Hty as <-. eexists. reflexivity.
  - apply lookup_singleton_Some in Hp. destruct Hp as [<- <-].
    eexists. split; [reflexivity|]. intros token value [<-|[]] Hty.
    injection Hty as <-. eexists. reflexivity.
Qed.

Lemma cycle_fs_walk_is_cycle :
  include_cycle cycle_fs_walk [lit "a.html"; lit "b.html"].
Proof.
  split; [discriminate|]. intros [|[|i]] p q Hp Hq; simpl in Hp.
  - injection Hp as <-. injection Hq as <-.
    eexists. split; [reflexivity|]. intros ms. eexists. split; [reflexivity|].
    eexists _, _. split; [right; left; reflexivity|]. split; reflexivity.
  - injection Hp as <-. injection Hq as <-.
    eexists. split; [reflexivity|]. intros ms. eexists. split; [reflexivity|].
    eexists _, _. split; [left; reflexivity|]. split; reflexivity.
  - discriminate.
Qed.

Lemma cycle_fs_walk_lexes : all_files_lex cycle_fs_walk.
Proof.
  intros p content ms Hp. unfold cycle_fs_walk in Hp.
  apply lookup_insert_Some in Hp. destruct Hp as [[<- <-]|[_ Hp]].
  - eexists. split; [reflexivity|]. intros token value [<-|[]] Hty.
    injection Hty as <-. eexists. reflexivity.
  - apply (cycle_fs_lexes p content ms) in Hp.
    destruct Hp as (tokens & Ht & Hres). exists tokens. split; [exact Ht|].
    intros token value Hin Hty. destruct (Hres token value Hin Hty) as [c Hc].
    unfold cycle_fs_walk.
    destruct (decide (include_path (file token) value = lit "./b.html")) as [E|E].
    + rewrite E. eexists. reflexivity.
    + rewrite lookup_insert_ne by congruence. eexists. exact Hc.
Qed.

Lemma include_cycle_is_an_error_witness :
  exists e,
    fst (process_file cycle_fs_walk 4 (lit "./b.html") (lit ".") init) = Raise e
    /\ circular_include_error cycle_fs_walk (lit "./b.html") [] e.
Proof.
  destruct (include_cycle_is_an_error cycle_fs_walk [lit "a.html"; lit "b.html"]
              (lit "./b.html") (lit ".") init 4) as (e & He & Hk).
  - exact cycle_fs_walk_is_cycle.
  - right. exists (lit "a.html"). split; [left; reflexivity|].
    eexists. split; [reflexivity|]. intros ms. eexists. split; [reflexivity|].
    eexists _, _. split; [left; reflexivity|]. split; reflexivity.
  - vm_compute. lia.
  - exists e. split; [exact He | exact (Hk cycle_fs_walk_lexes)].
Defined.

(** The run of the two files from the walk's spelling of the second: the
    error lists the two files entered and the first one again. *)
Lemma cycle_fs_walk_error :
  fst (process_file cycle_fs_walk 4 (lit "./b.html") (lit ".") init)
  = Raise (CircularInclusion [lit "a.html"; lit "b.html"; lit "a.html"]).
Proof. reflexivity. Qed.

(** C5, as stated, fails: a file that includes itself lies on a cycle of
    the include graph, but when it first includes a file that does not
    exist, processing it raises the error of [open], not the circular
    inclusion. *)
Lemma include_cycle_with_other_error_first :
  include_cycle dangling_fs [lit "a.html"]
  /\ fst (process_file dangling_fs 2 (lit "a.html") (lit ".") init)
     = Raise (FileNotFound (lit "missing.html")).
Proof.
  split; [|reflexivity].
  split; [discriminate|]. intros [|i] p q Hp Hq; simpl in Hp; [|discriminate].
  injection Hp as <-. injection Hq as <-.
  eexists. split; [reflexivity|]. intros ms. eexists. split; [reflexivity|].
  eexists _, _. split; [right; left; reflexivity|]. split; reflexivity.
Qed.

(** ** Malformed [#include] lines (claim C10) *)

Lemma tokenize_line_malformed ms filename lines i raw tokens :
  malformed_include raw = true ->
  tokenize_line ms filename lines i raw tokens = Done (tokens, i + 1).
Proof.
  unfold malformed_include. intros H. apply andb_true_iff in H.
  destruct H as [Hs Hm]. unfold tokenize_line.
  destruct (strip raw) as [|c l] eqn:L; [reflexivity|].
  rewrite Hs. destruct (match_include (c :: l)); [discriminate | reflexivity].
Qed.

Lemma tokenize_line_blank ms filename lines i tokens :
  tokenize_line ms filename lines i [] tokens = Done (tokens, i + 1).
Proof. reflexivity. Qed.

(** [collect_macro_body] reads no line beyond the one it stops at. *)
Lemma collect_loop_local (rest : list str) : forall rest' k body pc n b e,
  collect_loop rest k body pc = Done (b, e) ->
  e < k + n ->
  take n rest' = take n rest ->
  collect_loop rest' k body pc = Done (b, e).
Proof.
  induction rest as [|l rest IH]; intros rest' k body pc n b e H Hlt Ht.
  - simpl in H. injection H as <- <-. destruct n; [lia|].
    destruct rest'; [reflexivity | discriminate].
  - destruct n as [|n].
    { pose proof (collect_loop_index (l :: rest) k body pc) as Hi.
      rewrite H in Hi. lia. }
    destruct rest' as [|l' rest']; [discriminate|].
    simpl in Ht. injection Ht as -> Ht. simpl in *.
    destruct (0 <? fold_left count_paren (rstrip l) pc)%Z; [|exact H].
    apply (IH rest' (S k) _ _ n b e H); [lia | exact Ht].
Qed.

(** A turn of the lexer that ends before line [j + n] reads nothing from
    that line on. *)
Lemma tokenize_line_local ms filename lines lines' j raw tokens tokens' j' n :
  tokenize_line ms filename lines j raw tokens = Done (tokens', j') ->
  j' <= j + n ->
  take n (drop j lines') = take n (drop j lines) ->
  tokenize_line ms filename lines' j raw tokens = Done (tokens', j').
Proof.
  intros H Hle Ht.
  assert (forall b e, collect_macro_body lines j = Done (b, e) -> e + 1 <= j + n ->
                      collect_macro_body lines' j = Done (b, e)) as Hd.
  { intros b e E He. unfold collect_macro_body in *.
    apply (collect_loop_local _ _ _ _ _ n b e E); [lia | exact Ht]. }
  assert (forall b e, collect_macro_body (drop j lines) 0 = Done (b, e) ->
                      j + (e + 1) <= j + n ->
                      collect_macro_body (drop j lines') 0 = Done (b, e)) as Hc.
  { intros b e E He. unfold collect_macro_body in *. simpl in *.
    apply (collect_loop_local _ _ _ _ _ n b e E); [lia | exact Ht]. }
  unfold tokenize_line in *.
  destruct (strip raw) as [|c l]; [exact H|].
  repeat match goal with
         | |- context [if ?b then _ else _] => destruct b
         | |- context [match match_include ?x with _ => _ end] => destruct (match_include x)
         | |- context [match match_define ?x with _ => _ end] =>
             destruct (match_define x) as [[? ?]|]
         | |- context [match match_symbol ?x ?y with _ => _ end] => destruct (match_symbol x y)
         | |- context [match match_call_head ?x with _ => _ end] => destruct (match_call_head x)
         end; try exact H.
  all: first
    [ destruct (collect_macro_body lines j) as [[b e]| |] eqn:E;
        [|discriminate..];
      injection H as <- <-; rewrite (Hd b e eq_refl) by lia; reflexivity
    | destruct (collect_macro_body (drop j lines) 0) as [[b e]| |] eqn:E;
        [|discriminate..];
      injection H as <- <-; rewrite (Hc b e eq_refl) by lia; reflexivity ].
Qed.

Lemma leads_to_le ms filename lines i j tokens :
  leads_to ms filename lines i j tokens -> j <= i.
Proof.
  induction 1 as [|j raw tokens tokens' j' Hj Ht _ IH]; [lia|].
  pose proof (tokenize_line_progress ms filename lines j raw tokens) as Hp.
  rewrite Ht in Hp. lia.
Qed.

(** After the line that was changed, the lexer goes on as before. *)
Lemma tokenize_loop_after ms filename lines i x : forall fuel j tokens,
  i < j ->
  tokenize_loop fuel ms filename (<[i := x]> lines) j tokens
  = tokenize_loop fuel ms filename lines j tokens.
Proof.
  induction fuel as [|fuel IH]; intros j tokens Hij; simpl;
    rewrite list_lookup_insert_ne by lia; [reflexivity|].
  destruct (lines !! j) as [raw|]; [|reflexivity].
  assert (tokenize_line ms filename (<[i := x]> lines) j raw tokens
          = tokenize_line ms filename lines j raw tokens) as ->.
  { unfold tokenize_line, collect_macro_body.
    rewrite !drop_insert_lt by lia. reflexivity. }
  pose proof (tokenize_line_progress ms filename lines j raw tokens) as Hp.
  destruct (tokenize_line ms filename lines j raw tokens) as [[tokens' j']| |];
    [|reflexivity..].
  apply IH. lia.
Qed.

(** Up to a malformed [#include] line that the lexer reaches, and from it
    on, the lexer does what it does when the line is blank. *)
Lemma tokenize_loop_blank ms filename lines i raw :
  lines !! i = Some raw ->
  malformed_include raw = true ->
  forall j tokens, leads_to ms filename lines i j tokens ->
  forall fuel,
    tokenize_loop fuel ms filename (<[i := []]> lines) j tokens
    = tokenize_loop fuel ms filename lines j tokens.
Proof.
  intros Hi Hm j tokens H.
  pose proof (lookup_lt_Some _ _ _ Hi) as Hlen.
  induction H as [tokens|j raw' tokens tokens' j' Hj Ht Hto IH]; intros fuel.
  - destruct fuel as [|fuel]; simpl;
      rewrite list_lookup_insert_eq by exact Hlen; rewrite Hi; [reflexivity|].
    rewrite tokenize_line_blank, (tokenize_line_malformed _ _ _ _ _ _ Hm).
    apply tokenize_loop_after. lia.
  - pose proof (leads_to_le _ _ _ _ _ _ Hto) as Hle.
    pose proof (tokenize_line_progress ms filename lines j raw' tokens) as Hp.
    rewrite Ht in Hp.
    destruct fuel as [|fuel]; simpl;
      rewrite list_lookup_insert_ne by lia; rewrite Hj; [reflexivity|].
    rewrite Ht.
    rewrite (tokenize_line_local ms filename lines (<[i := []]> lines) j raw'
               tokens tokens' j' (i - j) Ht); [apply IH | lia |].
    rewrite drop_insert_ge by lia. apply take_insert_ge. lia.
Qed.

Lemma plain_line_blank (ms : dict) : plain_line ms [].
Proof.
  split; [reflexivity|]. intros name macro _ (pre & ws & post & E & _).
  destruct pre; [destruct name; [destruct ws|]|]; discriminate.
Qed.

Lemma blank_out_plain (ms : dict) (lines : list str) :
  Forall (fun l => malformed_include l = true \/ plain_line ms l) lines ->
  Forall (plain_line ms) (blank_out lines).
Proof.
  induction 1 as [|l lines [Hm|Hp] _ IH]; simpl; constructor; try exact IH.
  - rewrite Hm. apply plain_line_blank.
  - destruct (malformed_include l); [apply plain_line_blank | exact Hp].
Qed.

Lemma blank_out_output (lines : list str) :
  List.filter nonempty (map strip (blank_out lines))
  = List.filter nonempty
      (map strip (List.filter (fun l => negb (malformed_include l)) lines)).
Proof.
  induction lines as [|l lines IH]; simpl; [reflexivity|].
  destruct (malformed_include l); simpl; rewrite IH; reflexivity.
Qed.

Lemma tokenize_loop_mixed ms filename lines :
  Forall (fun l => malformed_include l = true \/ plain_line ms l) lines ->
  forall fuel i tokens,
    length lines <= fuel + i ->
    tokenize_loop fuel ms filename lines i tokens
    = Done (tokens ++ text_tokens filename i (blank_out (drop i lines))).
Proof.
  intros Hp. induction fuel as [|fuel IH]; intros i tokens Hl.
  - simpl. rewrite lookup_ge_None_2 by lia.
    rewrite drop_ge by lia. rewrite app_nil_r. reflexivity.
  - simpl. destruct (lines !! i) as [raw|] eqn:Hi.
    + rewrite (drop_S _ _ _ Hi). simpl.
      assert (malformed_include raw = true \/ plain_line ms raw) as [Hm|Hq].
      { rewrite Forall_forall in Hp. apply Hp.
        eapply list_elem_of_lookup_2. exact Hi. }
      * rewrite (tokenize_line_malformed _ _ _ _ _ _ Hm), Hm. simpl.
        rewrite IH by lia. replace (i + 1) with (S i) by lia. reflexivity.
      * rewrite (tokenize_line_plain _ _ _ _ _ _ Hq).
        destruct Hq as [Hd _].
        assert (malformed_include raw = false) as ->.
        { unfold malformed_include. unfold is_directive in Hd.
          repeat (apply orb_false_elim in Hd; destruct Hd as [Hd ?]).
          rewrite Hd. reflexivity. }
        rewrite IH by lia. rewrite <- app_assoc.
        replace (i + 1) with (S i) by lia. reflexivity.
    + apply lookup_ge_None_1 in Hi. rewrite drop_ge by lia.
      rewrite app_nil_r. reflexivity.
Qed.

(** C10 (amended): a line that begins, once trimmed, with [#include] and
    does not match the include pattern yields no token at all when the
    lexer's loop comes to begin a turn at it, that is when the line does
    not lie inside the body of a [#define] or inside a call that runs over
    several lines: the lexer returns what it returns for the same text
    with that line left blank, tokens or exception.  In a file made of
    such lines and of lines without directive and macro call, processed in
    a state whose conditional stack is not suppressing, the tokens are the
    text tokens of the other non-blank lines, and the output is these
    lines, trimmed and joined by newlines, without the malformed lines;
    the state is left as it was and no error is raised. *)
Theorem malformed_include_line_is_dropped (ms : dict) (filename content : str) :
  (forall i raw content',
     split nl content !! i = Some raw ->
     malformed_include raw = true ->
     lexer_reaches ms filename (split nl content) i ->
     split nl content' = <[i := []]> (split nl content) ->
     tokenize ms content filename = tokenize ms content' filename)
  /\ (Forall (fun l => malformed_include l = true \/ plain_line ms l)
        (split nl content) ->
      tokenize ms content filename
      = Done (text_tokens filename 0 (blank_out (split nl content)))
      /\ forall fs fuel base_dir self,
           macros self = ms ->
           fs !! filename = Some content ->
           suppressed self = false ->
           process_file fs fuel filename base_dir self
           = (Done (join [nl]
                      (List.filter nonempty
                         (map strip
                            (List.filter (fun l => negb (malformed_include l))
                               (split nl content))))), self)).
Proof.
  split.
  - intros i raw content' Hi Hm Hr Hs. unfold tokenize. rewrite Hs.
    rewrite length_insert. apply eq_sym.
    apply (tokenize_loop_blank _ _ _ _ _ Hi Hm _ _ Hr).
  - intros Hp.
    assert (tokenize ms content filename
            = Done (text_tokens filename 0 (blank_out (split nl content)))) as Ht.
    { unfold tokenize. rewrite (tokenize_loop_mixed _ _ _ Hp) by lia.
      rewrite drop_0. reflexivity. }
    split; [exact Ht|]. intros fs fuel base_dir self Hms Hf Hs. subst ms.
    unfold process_file, read_file. rewrite Hf.
    unfold bind at 1. unfold ret at 1. unfold bind at 1. unfold get at 1.
    unfold bind at 1. unfold lift at 1. rewrite Ht.
    rewrite process_tokens_eq. unfold bind.
    rewrite collect_macros_text,
      (emit_loop_text _ _ _ _ Hs _ (blank_out_plain _ _ Hp)). simpl app.
    unfold ret. rewrite filter_nonempty_idem, blank_out_output. reflexivity.
Qed.

Lemma mixed_lines_sound (ms : dict) (lines : list str) :
  forallb (mixed_lineb ms) lines = true ->
  Forall (fun l => malformed_include l = true \/ plain_line ms l) lines.
Proof.
  intros H. apply Forall_forall. intros l Hl.
  rewrite forallb_forall in H. apply list_elem_of_In in Hl.
  specialize (H l Hl). unfold mixed_lineb in H. apply orb_true_iff in H.
  destruct H as [H|H]; [left; exact H | right; apply plain_lineb_sound; exact H].
Qed.

Lemma malformed_include_line_is_dropped_witness :
  tokenize [] (lit "<p>x</p>" ++ nl :: lit "#include index.html" ++ nl :: lit "last")
    (lit "a.html")
  = tokenize [] (lit "<p>x</p>" ++ nl :: nl :: lit "last") (lit "a.html")
  /\ process_file {[ lit "a.html" := mixed_file ]} 0 (lit "a.html") (lit ".")
       (with_macros [(lit "GREET", macro_GREET)])
     = (Done (lit "<p>x</p>" ++ nl :: lit "last (one)"),
        with_macros [(lit "GREET", macro_GREET)]).
Proof.
  split.
  - apply (proj1 (malformed_include_line_is_dropped []
                    (lit "a.html")
                    (lit "<p>x</p>" ++ nl :: lit "#include index.html" ++ nl :: lit "last"))
             1 (lit "#include index.html")
             (lit "<p>x</p>" ++ nl :: nl :: lit "last")); try reflexivity.
    eapply leads_step; [reflexivity | reflexivity | apply leads_here].
  - assert (Forall (fun l => malformed_include l = true
                             \/ plain_line [(lit "GREET", macro_GREET)] l)
              (split nl mixed_file)) as Hp
      by (apply mixed_lines_sound; reflexivity).
    apply (proj2 (proj2 (malformed_include_line_is_dropped
                           [(lit "GREET", macro_GREET)] (lit "a.html") mixed_file)
                    Hp)
             {[ lit "a.html" := mixed_file ]} 0 (lit ".")
             (with_macros [(lit "GREET", macro_GREET)])); reflexivity.
Defined.

(** C10, as stated, fails: a malformed [#include] line inside the body of
    a [#define] is part of the body, and reaches the output when the macro
    is called. *)
Lemma malformed_include_in_body_reaches_output :
  malformed_include (lit "#include index.html") = true
  /\ fst (process_file {[ lit "a.html" := include_in_body_file ]} 0
            (lit "a.html") (lit ".") init)
     = Done (lit "#define M()(" ++ nl :: lit "#include index.html" ++ [nl]).
Proof. vm_compute. split; reflexivity. Qed.

(** ** One turn per macro, on the leftmost call (claim C3) *)

Lemma call_args_inv (s : str) : forall inner g r,
  call_args inner s = Some (g, r) -> s = g ++ ")" :: r.
Proof.
  induction s as [|c s IH]; intros inner g r; simpl; [discriminate|].
  destruct (eqc c "(") eqn:Eo.
  - destruct inner; [discriminate|].
    destruct (call_args true s) as [[g' r']|] eqn:E; [|discriminate].
    intros [= <- <-]. simpl. f_equal. apply (IH true). exact E.
  - destruct (eqc c ")") eqn:Ec.
    + apply eqc_eq in Ec. subst c. destruct inner.
      * destruct (call_args false s) as [[g' r']|] eqn:E; [|discriminate].
        intros [= <- <-]. simpl. f_equal. apply (IH false). exact E.
      * intros [= <- <-]. reflexivity.
    + destruct (call_args inner s) as [[g' r']|] eqn:E; [|discriminate].
      intros [= <- <-]. simpl. f_equal. apply (IH inner). exact E.
Qed.

Lemma call_args_inner_run (t rest : str) :
  no_paren t = true ->
  call_args true (t ++ ")" :: rest)
  = match call_args false rest with
    | Some (g, r) => Some (t ++ ")" :: g, r)
    | None => None
    end.
Proof.
  intros H. induction t as [|c t IH]; simpl.
  - destruct (call_args false rest) as [[g r]|]; reflexivity.
  - simpl in H. apply andb_true_iff in H. destruct H as [Hc H].
    apply negb_true_iff, orb_false_elim in Hc. destruct Hc as [Ho Hc].
    rewrite Ho, Hc, (IH H).
    destruct (call_args false rest) as [[g r]|]; reflexivity.
Qed.

(** The matcher accepts every argument text, up to the parenthesis that
    closes the call. *)
Lemma call_args_complete (g : str) :
  args_text g -> forall r, call_args false (g ++ ")" :: r) = Some (g, r).
Proof.
  induction 1 as [|c s Ho Hc _ IH|t s Ht _ IH]; intros r.
  - reflexivity.
  - simpl. rewrite Ho, Hc, IH. reflexivity.
  - simpl. rewrite <- app_assoc. simpl.
    rewrite (call_args_inner_run _ _ Ht), IH. reflexivity.
Qed.

(** What the matcher accepts is an argument text. *)
Lemma call_args_sound (s : str) : forall inner g r,
  call_args inner s = Some (g, r) ->
  if inner
  then exists t g', g = t ++ ")" :: g' /\ no_paren t = true /\ args_text g'
  else args_text g.
Proof.
  induction s as [|c s IH]; intros inner g r; simpl; [discriminate|].
  destruct (eqc c "(") eqn:Eo.
  - destruct inner; [discriminate|].
    destruct (call_args true s) as [[g' r']|] eqn:E; [|discriminate].
    intros [= <- <-]. apply eqc_eq in Eo. subst c.
    destruct (IH true g' r' E) as (t & g2 & -> & Ht & Hg).
    apply args_group; assumption.
  - destruct (eqc c ")") eqn:Ec.
    + destruct inner.
      * destruct (call_args false s) as [[g' r']|] eqn:E; [|discriminate].
        intros [= <- <-]. apply eqc_eq in Ec. subst c.
        exists [], g'. repeat split. apply (IH false g' r' E).
      * intros [= <- <-]. constructor.
    + destruct (call_args inner s) as [[g' r']|] eqn:E; [|discriminate].
      intros [= <- <-]. specialize (IH inner g' r' E). destruct inner.
      * destruct IH as (t & g2 & -> & Ht & Hg). exists (c :: t), g2.
        repeat split; [|exact Hg]. simpl. rewrite Eo, Ec. exact Ht.
      * apply args_char; assumption.
Qed.

Lemma match_call_at_complete (name ws g r : str) :
  forallb is_s ws = true -> args_text g ->
  match_call_at name (name ++ ws ++ "(" :: g ++ ")" :: r) = Some (g, r).
Proof.
  intros W G. unfold match_call_at.
  rewrite strip_prefix_app, (span_stop _ _ _ _ W) by reflexivity.
  simpl. apply call_args_complete. exact G.
Qed.

Lemma match_call_at_sound (name s g r : str) :
  match_call_at name s = Some (g, r) ->
  exists ws,
    s = name ++ ws ++ "(" :: g ++ ")" :: r
    /\ forallb is_s ws = true /\ args_text g.
Proof.
  unfold match_call_at. destruct (strip_prefix name s) as [t|] eqn:E; [|discriminate].
  apply strip_prefix_inv in E. subst s.
  destruct (span_app is_s t) as [Et Ws].
  destruct (snd (span is_s t)) as [|c r'] eqn:F; [discriminate|].
  destruct (eqc c "(") eqn:C.
  - apply eqc_eq in C. subst c. intros H.
    pose proof (call_args_sound _ _ _ _ H) as G. simpl in G.
    apply call_args_inv in H. subst r'.
    exists (fst (span is_s t)). repeat split; [|exact Ws|exact G].
    f_equal. exact Et.
  - intros H. exfalso. revert H C. clear.
    destruct c as [[] [] [] [] [] [] [] []]; simpl; try discriminate.
Qed.

(** The matcher decides whether a call starts at a place. *)
Lemma call_at_match (name s : str) :
  call_at name s <-> exists g r, match_call_at name s = Some (g, r).
Proof.
  split.
  - intros (ws & g & r & -> & W & G). exists g, r.
    apply match_call_at_complete; assumption.
  - intros (g & r & H). destruct (match_call_at_sound _ _ _ _ H) as (ws & E & W & G).
    exists ws, g, r. auto.
Qed.

(** The search returns the leftmost call, and nothing when there is no
    call. *)
Lemma search_call_leftmost (name : str) (before : str) : forall rest g after,
  match_call_at name rest = Some (g, after) ->
  (forall pre' rest',
     before ++ rest = pre' ++ rest' -> length pre' < length before ->
     ~ call_at name rest') ->
  search_call name (before ++ rest) = Some (before, g, after).
Proof.
  induction before as [|c before IH]; intros rest g after Hm Hl.
  - simpl. destruct rest; simpl; rewrite Hm; reflexivity.
  - simpl. destruct (match_call_at name (c :: before ++ rest)) as [[g' r']|] eqn:E.
    + exfalso. apply (Hl [] (c :: before ++ rest)); [reflexivity | simpl; lia|].
      apply call_at_match. eauto.
    + rewrite (IH rest g after Hm); [reflexivity|].
      intros pre' rest' E' Hlt. apply (Hl (c :: pre') rest'); [|simpl; lia].
      simpl. f_equal. exact E'.
Qed.

Lemma search_call_none_iff (name s : str) :
  search_call name s = None <-> no_call name s.
Proof.
  split.
  - intros H pre rest ->. revert H. induction pre as [|c pre IH]; intros H Hc.
    + apply call_at_match in Hc. destruct Hc as (g & r & Hm).
      destruct rest; simpl in H; rewrite Hm in H; discriminate.
    + simpl in H. destruct (match_call_at name (c :: pre ++ rest)) as [[g r]|];
        [discriminate|].
      destruct (search_call name (pre ++ rest)) as [[[b g] r]|] eqn:F;
        [discriminate|]. apply IH; [reflexivity | exact Hc].
  - intros H. induction s as [|c s IH].
    + simpl. destruct (match_call_at name []) as [[g r]|] eqn:E; [|reflexivity].
      exfalso. apply (H [] []); [reflexivity|]. apply call_at_match. eauto.
    + simpl. destruct (match_call_at name (c :: s)) as [[g r]|] eqn:E.
      * exfalso. apply (H [] (c :: s)); [reflexivity|]. apply call_at_match. eauto.
      * rewrite IH; [reflexivity|]. intros pre rest -> Hc.
        apply (H (c :: pre) rest); [reflexivity | exact Hc].
Qed.

Lemma search_call_of_leftmost (name line before ws group1 after : str) :
  leftmost_call name line before ws group1 after ->
  search_call name line = Some (before, group1, after).
Proof.
  intros (E & W & G & Hl). subst line. apply search_call_leftmost.
  - apply match_call_at_complete; assumption.
  - exact Hl.
Qed.

(** C3 (amended): the macros of the table are tried once each, in the
    table's order, each on the text reached after the turns of the macros
    before it.  At the turn of a macro, when the text holds no call of it
    the text stays as it is; otherwise the leftmost call of it, and no
    other, is replaced by its expansion, provided the expansion succeeds.
    The text so obtained, expansion included, then goes through the turns
    of the macros that come later in the table, and of no other macro: for
    the last macro of the table it is the result, with the expansion
    verbatim in it. *)
Theorem one_turn_per_macro_on_leftmost_call
    (self : Preprocessor) (items1 items2 : dict) (name : str) (macro : Macro)
    (value line1 : str) :
  macros self = items1 ++ (name, macro) :: items2 ->
  process_text (set_macros (fun _ => items1) self) value = Done line1 ->
  (no_call name line1 ->
   process_text self value = process_text (set_macros (fun _ => items2) self) line1)
  /\ (forall before ws group1 after expansion,
        leftmost_call name line1 before ws group1 after ->
        expand_macro macro (parse_macro_args group1) = Done expansion ->
        process_text self value
        = process_text (set_macros (fun _ => items2) self)
            (before ++ expansion ++ after)
        /\ (items2 = [] ->
            process_text self value = Done (before ++ expansion ++ after))).
Proof.
  unfold process_text. simpl. intros -> H1. split.
  - intros Hn. apply search_call_none_iff in Hn.
    rewrite process_text_loop_app, H1. simpl. rewrite Hn. reflexivity.
  - intros before ws group1 after expansion Hl He.
    apply search_call_of_leftmost in Hl.
    rewrite process_text_loop_app, H1. simpl. rewrite Hl, He.
    split; [reflexivity|]. intros ->. reflexivity.
Qed.

Lemma no_call_b (name line : str) :
  search_call name line = None -> no_call name line.
Proof. apply search_call_none_iff. Qed.

(** With [B] before [A] in the table: [B] has no call in the text, so its
    turn changes nothing; at the turn of [A] the first of its two calls is
    replaced, by a call of [B], which stays, as does the second call of
    [A]. *)
Lemma one_turn_per_macro_on_leftmost_call_witness :
  let self := with_macros [(lit "B", macro_B); (lit "A", macro_A)] in
  process_text self (lit "x A () A()")
  = process_text (set_macros (fun _ => [(lit "A", macro_A)]) self) (lit "x A () A()")
  /\ process_text self (lit "x A () A()") = Done (lit "x B(1) A()").
Proof.
  split.
  - apply (one_turn_per_macro_on_leftmost_call
             (with_macros [(lit "B", macro_B); (lit "A", macro_A)])
             [] [(lit "A", macro_A)] (lit "B") macro_B
             (lit "x A () A()") (lit "x A () A()")); try reflexivity.
    apply no_call_b. reflexivity.
  - refine (proj2 (proj2 (one_turn_per_macro_on_leftmost_call
                            (with_macros [(lit "B", macro_B); (lit "A", macro_A)])
                            [(lit "B", macro_B)] [] (lit "A") macro_A
                            (lit "x A () A()") (lit "x A () A()") eq_refl eq_refl)
                     (lit "x ") (lit " ") [] (lit " A()") (lit "B(1)") _ eq_refl)
              eq_refl).
    repeat split; try constructor.
    intros pre rest E Hlt Hc. apply call_at_match in Hc. destruct Hc as (g & r & Hm).
    destruct pre as [|c1 [|c2 pre]]; simpl in E, Hlt;
      [ | injection E as E1 E | lia]; subst rest; vm_compute in Hm; discriminate.
Defined.

(** * Further properties of the code *)

(** ** What a whole run keeps *)

Lemma for_each_keeps {A} (I : Preprocessor -> Prop) (l : list A) (f : A -> M unit) :
  (forall x self, In x l -> I self -> I (snd (f x self))) ->
  forall self, I self -> I (snd (for_each l f self)).
Proof.
  induction l as [|x l IH]; intros Hf self HI; simpl; [exact HI|].
  unfold bind. pose proof (Hf x self (or_introl eq_refl) HI) as Hx.
  destruct (f x self) as [[[]| |] s]; simpl in *; try exact Hx.
  apply IH; [|exact Hx]. intros y s' Hy. apply Hf. right. exact Hy.
Qed.

Lemma emit_loop_keeps (I : Preprocessor -> Prop) pi base_dir (l : list Token) :
  (forall token self, In token l -> I self -> I (snd (emit_token pi token base_dir self))) ->
  forall output self, I self -> I (snd (emit_loop pi l base_dir output self)).
Proof.
  induction l as [|x l IH]; intros Hf output self HI; simpl; [exact HI|].
  unfold bind. pose proof (Hf x self (or_introl eq_refl) HI) as Hx.
  destruct (emit_token pi x base_dir self) as [[o| |] s]; simpl in *; try exact Hx.
  apply IH; [|exact Hx]. intros y s' Hy. apply Hf. right. exact Hy.
Qed.

Lemma process_include_with_eq fs process token value base_dir self :
  process_include_with fs process token value base_dir self
  = let q := include_path (file token) value in
    match fs !! q with
    | None => (Raise (FileNotFound q), pop_include (push_include q self))
    | Some content =>
        match tokenize (macros self) content q with
        | Done tokens =>
            let r := process tokens base_dir (push_include q self) in
            (fst r, pop_include (snd r))
        | Raise e => (Raise e, pop_include (push_include q self))
        | Timeout => (Timeout, pop_include (push_include q self))
        end
    end.
Proof.
  unfold process_include_with, bind, get, modify, raise, try_finally,
    read_file, lift, ret. simpl.
  destruct (fs !! _) as [content|]; simpl; [|reflexivity].
  destruct (tokenize _ _ _) as [tokens| |]; simpl; [|reflexivity..].
  destruct (process tokens base_dir _); reflexivity.
Qed.

Lemma handle_conditional_directive_stack token self :
  include_stack (snd (handle_conditional_directive token self)) = include_stack self.
Proof.
  unfold handle_conditional_directive.
  destruct (type token); try reflexivity; unfold bind, get; simpl.
  - destruct (last (conditional_stack self)); reflexivity.
  - destruct (conditional_stack self); reflexivity.
Qed.

Lemma collect_macros_stack fs base_dir : forall fuel tokens self,
  include_stack (snd (collect_macros fs fuel tokens base_dir self)) = include_stack self.
Proof.
  induction fuel as [|fuel IH]; intros tokens self; rewrite collect_macros_eq;
    apply (for_each_keeps (fun s => include_stack s = include_stack self));
    try reflexivity;
    intros token s _ Hs; unfold collect_token; destruct (type token); simpl;
      try exact Hs.
  rewrite process_include_macros_with_eq. cbv zeta.
  destruct (bool_decide _); [exact Hs|].
  destruct (fs !! _); [|simpl; rewrite removelast_last; exact Hs].
  destruct (tokenize _ _ _); simpl; rewrite ?IH; simpl;
    rewrite removelast_last; exact Hs.
Qed.

Lemma emit_token_stack (pi : Token -> str -> str -> M str) token base_dir self :
  (forall value s, include_stack (snd (pi token value base_dir s)) = include_stack s) ->
  include_stack (snd (emit_token pi token base_dir self)) = include_stack self.
Proof.
  intros Hpi. unfold emit_token, bind, get. simpl.
  pose proof (handle_conditional_directive_stack token self) as Hh.
  destruct (suppressed self).
  - destruct (type token); try reflexivity;
      destruct (handle_conditional_directive token self) as [[[]| |] s']; exact Hh.
  - destruct (type token) eqn:Hty; try reflexivity;
      try (destruct (handle_conditional_directive token self) as [[[]| |] s']; exact Hh).
    + specialize (Hpi value self).
      destruct (pi token value base_dir self) as [[o| |] s']; exact Hpi.
    + unfold lift. destruct (process_text self value); reflexivity.
Qed.

Lemma pass2_include_stack fs fuel base_dir :
  (forall fuel' tokens self,
     fuel = S fuel' ->
     include_stack (snd (process_tokens fs fuel' tokens base_dir self))
     = include_stack self) ->
  forall token value s,
    include_stack (snd (pass2_include fs fuel token value base_dir s)) = include_stack s.
Proof.
  intros IH token value s. unfold pass2_include. destruct fuel as [|fuel]; [reflexivity|].
  rewrite process_include_with_eq. cbv zeta.
  destruct (fs !! _); [|simpl; apply removelast_last].
  destruct (tokenize _ _ _) as [tokens'| |]; simpl; try apply removelast_last.
  rewrite (IH fuel) by reflexivity. simpl. apply removelast_last.
Qed.

Lemma process_tokens_stack_step fs base_dir fuel :
  (forall fuel' tokens self,
     fuel = S fuel' ->
     include_stack (snd (process_tokens fs fuel' tokens base_dir self))
     = include_stack self) ->
  forall tokens self,
    include_stack (snd (process_tokens fs fuel tokens base_dir self))
    = include_stack self.
Proof.
  intros IH tokens self. rewrite process_tokens_eq. unfold bind at 1.
  pose proof (collect_macros_stack fs base_dir fuel tokens self) as H1.
  destruct (collect_macros fs fuel tokens base_dir self) as [[[]| |] s1];
    simpl in H1; try exact H1.
  unfold bind.
  assert (include_stack (snd (emit_loop (pass2_include fs fuel) tokens base_dir [] s1))
          = include_stack self) as H3.
  { apply (emit_loop_keeps (fun s => include_stack s = include_stack self));
      [|exact H1]. intros token s _ Hs.
    rewrite emit_token_stack; [exact Hs|].
    intros value s'. apply pass2_include_stack. exact IH. }
  destruct (emit_loop (pass2_include fs fuel) tokens base_dir [] s1) as [[o| |] s2];
    exact H3.
Qed.

Lemma process_tokens_stack fs base_dir : forall fuel tokens self,
  include_stack (snd (process_tokens fs fuel tokens base_dir self)) = include_stack self.
Proof.
  induction fuel as [|fuel IH]; apply process_tokens_stack_step.
  - discriminate.
  - intros fuel' tokens self [= <-]. apply IH.
Qed.

(** X1: whatever way the processing of a file ends, with its output or
    with an error, the include stack is afterwards what it was before:
    every push is undone on every exit path. *)
Theorem process_file_restores_include_stack
    (fs : gmap str str) (fuel : nat) (filepath base_dir : str) (self : Preprocessor) :
  include_stack (snd (process_file fs fuel filepath base_dir self))
  = include_stack self.
Proof.
  unfold process_file, read_file, bind, get, lift, ret.
  destruct (fs !! filepath) as [content|]; simpl; [|reflexivity].
  destruct (tokenize (macros self) content filepath) as [tokens| |]; simpl;
    [|reflexivity..].
  pose proof (process_tokens_stack fs base_dir fuel tokens self) as H.
  destruct (process_tokens fs fuel tokens base_dir self) as [[o| |] s]; exact H.
Qed.

Section Keeps.

(** A property of the macro table and the symbol set that defining and
    undefining a macro keep. *)
Variable I : Preprocessor -> Prop.
Hypothesis I_stack : forall f s, I s -> I (set_include_stack f s).
Hypothesis I_cond : forall f s, I s -> I (set_conditional_stack f s).
Hypothesis I_define : forall name m s,
  I s -> I (set_defined_symbols (fun d => d ∪ {[name]}) (set_macros (dict_set name m) s)).
Hypothesis I_undef : forall value s,
  I s ->
  I (set_defined_symbols (fun d => d ∖ {[value]})
       (set_macros (fun m => if dict_mem value m then dict_del value m else m) s)).

Lemma handle_conditional_directive_keeps token self :
  I self -> I (snd (handle_conditional_directive token self)).
Proof.
  intros HI. unfold handle_conditional_directive.
  destruct (type token); try exact HI; unfold bind, get, modify; simpl.
  - apply I_cond. exact HI.
  - apply I_cond. exact HI.
  - destruct (last (conditional_stack self)); simpl; [apply I_cond|]; exact HI.
  - destruct (conditional_stack self); simpl; [|apply I_cond]; exact HI.
Qed.

Lemma collect_macros_keeps fs base_dir : forall fuel tokens self,
  I self -> I (snd (collect_macros fs fuel tokens base_dir self)).
Proof.
  induction fuel as [|fuel IH]; intros tokens self HI; rewrite collect_macros_eq;
    apply (for_each_keeps I); try exact HI;
    intros token s _ Hs; unfold collect_token; destruct (type token); simpl;
      try exact Hs; try (apply I_define; exact Hs).
  rewrite process_include_macros_with_eq. cbv zeta.
  destruct (bool_decide _); [exact Hs|].
  destruct (fs !! _); [|simpl; apply I_stack, I_stack; exact Hs].
  destruct (tokenize _ _ _); simpl; try (apply I_stack, I_stack; exact Hs).
  apply I_stack, IH, I_stack. exact Hs.
Qed.

Lemma emit_token_keeps (pi : Token -> str -> str -> M str) token base_dir self :
  (forall value s, I s -> I (snd (pi token value base_dir s))) ->
  I self -> I (snd (emit_token pi token base_dir self)).
Proof.
  intros Hpi HI. unfold emit_token, bind, get. simpl.
  pose proof (handle_conditional_directive_keeps token self HI) as Hh.
  destruct (suppressed self).
  - destruct (type token); try exact HI;
      destruct (handle_conditional_directive token self) as [[[]| |] s']; exact Hh.
  - destruct (type token) eqn:Hty; try exact HI;
      try (destruct (handle_conditional_directive token self) as [[[]| |] s']; exact Hh).
    + specialize (Hpi value self HI).
      destruct (pi token value base_dir self) as [[o| |] s']; exact Hpi.
    + apply I_undef. exact HI.
    + unfold lift. destruct (process_text self value); exact HI.
Qed.

Lemma process_tokens_keeps_step fs base_dir fuel :
  (forall fuel' tokens self,
     fuel = S fuel' -> I self -> I (snd (process_tokens fs fuel' tokens base_dir self))) ->
  forall tokens self,
    I self -> I (snd (process_tokens fs fuel tokens base_dir self)).
Proof.
  intros IH tokens self HI. rewrite process_tokens_eq. unfold bind at 1.
  pose proof (collect_macros_keeps fs base_dir fuel tokens self HI) as H1.
  destruct (collect_macros fs fuel tokens base_dir self) as [[[]| |] s1];
    simpl in H1; try exact H1.
  unfold bind.
  assert (I (snd (emit_loop (pass2_include fs fuel) tokens base_dir [] s1))) as H3.
  { apply (emit_loop_keeps I); [|exact H1]. intros token s _ Hs.
    apply emit_token_keeps; [|exact Hs].
    intros value s' Hs'. unfold pass2_include. destruct fuel as [|fuel']; [exact Hs'|].
    rewrite process_include_with_eq. cbv zeta.
    destruct (fs !! _); [|simpl; apply I_stack, I_stack; exact Hs'].
    destruct (tokenize _ _ _); simpl; try (apply I_stack, I_stack; exact Hs').
    apply I_stack, (IH fuel'); [reflexivity|]. apply I_stack. exact Hs'. }
  destruct (emit_loop (pass2_include fs fuel) tokens base_dir [] s1) as [[o| |] s2];
    exact H3.
Qed.

Lemma process_tokens_keeps fs base_dir : forall fuel tokens self,
  I self -> I (snd (process_tokens fs fuel tokens base_dir self)).
Proof.
  induction fuel as [|fuel IH]; apply process_tokens_keeps_step.
  - discriminate.
  - intros fuel' tokens self [= <-]. apply IH.
Qed.

Lemma process_file_keeps fs fuel filepath base_dir self :
  I self -> I (snd (process_file fs fuel filepath base_dir self)).
Proof.
  intros HI. unfold process_file, read_file, bind, get, lift, ret.
  destruct (fs !! filepath) as [content|]; simpl; [|exact HI].
  destruct (tokenize (macros self) content filepath) as [tokens| |]; simpl;
    try exact HI.
  pose proof (process_tokens_keeps fs base_dir fuel tokens self HI) as H.
  destruct (process_tokens fs fuel tokens base_dir self) as [[o| |] s]; exact H.
Qed.

End Keeps.

Lemma str_eqb_eq (a b : str) : str_eqb a b = true <-> a = b.
Proof. unfold str_eqb. apply bool_decide_eq_true. Qed.

Lemma dict_mem_set_iff (k n : str) (v : Macro) (d : dict) :
  dict_mem k (dict_set n v d) = true <-> k = n \/ dict_mem k d = true.
Proof.
  unfold dict_mem. induction d as [|[k' v'] d IH]; simpl.
  - destruct (str_eqb k n) eqn:E.
    + apply str_eqb_eq in E. tauto.
    + split; [discriminate|]. intros [->|]; [|discriminate].
      rewrite str_eqb_refl in E. discriminate.
  - destruct (str_eqb n k') eqn:E; simpl.
    + apply str_eqb_eq in E. subst k'. destruct (str_eqb k n) eqn:F.
      * apply str_eqb_eq in F. tauto.
      * split; [tauto|]. intros [->|H]; [|exact H].
        rewrite str_eqb_refl in F. discriminate.
    + destruct (str_eqb k k'); [tauto | exact IH].
Qed.

Lemma dict_mem_del_iff (k n : str) (d : dict) :
  dict_mem k (dict_del n d) = true <-> k <> n /\ dict_mem k d = true.
Proof.
  unfold dict_mem. induction d as [|[k' v'] d IH]; simpl.
  - split; [discriminate | intros [_ H]; discriminate].
  - destruct (str_eqb n k') eqn:E; simpl.
    + apply str_eqb_eq in E. subst k'. destruct (str_eqb k n) eqn:F.
      * apply str_eqb_eq in F. subst k. rewrite IH. tauto.
      * exact IH.
    + destruct (str_eqb k k') eqn:F; [|exact IH].
      apply str_eqb_eq in F. subst k'. split; [|tauto]. intros _. split; [|reflexivity].
      intros ->. rewrite str_eqb_refl in E. discriminate.
Qed.

(** X2: the invariant of the data model is kept by a whole run: when a
    name is a defined symbol exactly if it is a key of the macro table
    before a file is processed, the same holds afterwards, whether the
    file is processed to the end or an error stops it. *)
Theorem process_file_keeps_symbols_in_step
    (fs : gmap str str) (fuel : nat) (filepath base_dir : str) (self : Preprocessor) :
  table_matches_symbols self ->
  table_matches_symbols (snd (process_file fs fuel filepath base_dir self)).
Proof.
  apply process_file_keeps.
  - intros f s H. exact H.
  - intros f s H. exact H.
  - intros name m s H k. specialize (H k). simpl.
    rewrite dict_mem_set_iff, <- H. set_solver.
  - intros value s H k. pose proof (H k) as Hk. simpl.
    destruct (dict_mem value (macros s)) eqn:E.
    + rewrite dict_mem_del_iff, <- Hk. set_solver.
    + rewrite <- Hk. split; [set_solver|]. intros Hin.
      apply elem_of_difference. split; [exact Hin|]. intros Hv.
      apply elem_of_singleton in Hv. subst k. apply H in Hin. congruence.
Qed.

Lemma process_file_keeps_symbols_in_step_witness :
  table_matches_symbols
    (snd (process_file {[ lit "a.html" := define_undef_file ]} 0
            (lit "a.html") (lit ".") (with_macros [(lit "X", macro_B)]))).
Proof.
  apply (process_file_keeps_symbols_in_step {[ lit "a.html" := define_undef_file ]} 0
           (lit "a.html") (lit ".") (with_macros [(lit "X", macro_B)])).
  intros k. unfold with_macros, dict_mem. simpl. unfold str_eqb.
  case_bool_decide as E; split; intros Hk; try reflexivity; try discriminate;
    set_solver.
Defined.

(** ** Pass 1 *)

Lemma for_each_skip {A} (x : A) (l : list A) (f : A -> M unit) self :
  f x = ret tt -> for_each (x :: l) f self = for_each l f self.
Proof. intros E. simpl. rewrite E. reflexivity. Qed.

(** X3: pass 1 looks at [Define] and [Include] tokens only: conditionals,
    [Undef] and text have no part in it, so a macro defined in a region
    that pass 2 suppresses is collected like any other. *)
Theorem collect_macros_ignores_conditionals
    (fs : gmap str str) (fuel : nat) (tokens : list Token) (base_dir : str)
    (self : Preprocessor) :
  collect_macros fs fuel tokens base_dir self
  = collect_macros fs fuel (List.filter define_or_include tokens) base_dir self.
Proof.
  rewrite !collect_macros_eq. revert self.
  induction tokens as [|t tokens IH]; intros self; [reflexivity|].
  simpl List.filter. unfold define_or_include at 1.
  destruct (type t) eqn:Hty;
    try (rewrite for_each_skip by (unfold collect_token; rewrite Hty; reflexivity);
         apply IH);
    simpl; unfold bind;
    destruct (collect_token (pass1_include fs fuel) t base_dir self) as [[[]| |] s];
    try reflexivity; apply IH.
Qed.

Lemma dict_get_set (k n : str) (v : Macro) (d : dict) :
  dict_get k (dict_set n v d) = if str_eqb k n then Some v else dict_get k d.
Proof.
  induction d as [|[k' v'] d IH]; simpl.
  - destruct (str_eqb k n); reflexivity.
  - destruct (str_eqb n k') eqn:E; simpl.
    + apply str_eqb_eq in E. subst k'. destruct (str_eqb k n); reflexivity.
    + rewrite IH. destruct (str_eqb k k') eqn:F; [|reflexivity].
      apply str_eqb_eq in F. subst k'. destruct (str_eqb k n) eqn:G; [|reflexivity].
      apply str_eqb_eq in G. subst n. rewrite str_eqb_refl in E. discriminate.
Qed.

Lemma collect_macros_last_definition_wins_aux
    (fs : gmap str str) (fuel : nat) (tokens : list Token) (base_dir : str)
    (self : Preprocessor) :
  forallb (fun t => negb (is_include t)) tokens = true ->
  fst (collect_macros fs fuel tokens base_dir self) = Done tt
  /\ forall name,
       dict_get name (macros (snd (collect_macros fs fuel tokens base_dir self)))
       = match last_define name tokens with
         | Some m => Some m
         | None => dict_get name (macros self)
         end.
Proof.
  rewrite collect_macros_eq. revert self.
  induction tokens as [|t tokens IH]; intros self Hn; [split; reflexivity|].
  simpl in Hn. apply andb_true_iff in Hn. destruct Hn as [Ht Hn].
  simpl for_each. unfold bind.
  destruct (macro_of t) as [[n m]|] eqn:Hm.
  - assert (collect_token (pass1_include fs fuel) t base_dir self
            = (Done tt, set_defined_symbols (fun d => d ∪ {[n]})
                          (set_macros (dict_set n m) self))) as ->.
    { unfold macro_of in Hm. unfold collect_token.
      destruct (type t); try discriminate. injection Hm as <- <-. reflexivity. }
    destruct (IH (set_defined_symbols (fun d => d ∪ {[n]})
                    (set_macros (dict_set n m) self)) Hn) as [H1 H2].
    split; [exact H1|]. intros name. rewrite H2. simpl last_define. rewrite Hm.
    simpl. rewrite dict_get_set.
    destruct (last_define name tokens); [reflexivity|].
    destruct (str_eqb name n); reflexivity.
  - assert (collect_token (pass1_include fs fuel) t base_dir self = (Done tt, self)) as ->.
    { unfold macro_of in Hm. unfold is_include in Ht. unfold collect_token.
      destruct (type t); try discriminate; reflexivity. }
    destruct (IH self Hn) as [H1 H2]. split; [exact H1|]. intros name. rewrite H2.
    simpl last_define. rewrite Hm.
    destruct (last_define name tokens); reflexivity.
Qed.

(** X4: in a token list without [Include], pass 1 never fails, and the
    macro it leaves under a name is the one of the last [Define] of that
    name in the list, with the file and line of that token; a name the
    list does not define keeps the macro it had. *)
Theorem collect_macros_last_definition_wins
    (fs : gmap str str) (fuel : nat) (tokens : list Token) (base_dir name : str)
    (self : Preprocessor) :
  forallb (fun t => negb (is_include t)) tokens = true ->
  let r := collect_macros fs fuel tokens base_dir self in
  fst r = Done tt
  /\ dict_get name (macros (snd r))
     = match last_define name tokens with
       | Some m => Some m
       | None => dict_get name (macros self)
       end.
Proof.
  intros H. cbv zeta.
  destruct (collect_macros_last_definition_wins_aux fs fuel tokens base_dir self H)
    as [H1 H2].
  split; [exact H1 | apply H2].
Qed.

Lemma collect_macros_last_definition_wins_witness :
  let tokens := [mk (DEFINE (lit "X") [] (lit "one")) 0 (lit "a.html");
                 mk (IFDEF (lit "U")) 1 (lit "a.html");
                 mk (DEFINE (lit "X") [lit "p"] (lit "two")) 2 (lit "a.html");
                 mk ENDIF 3 (lit "a.html")] in
  let r := collect_macros ∅ 0 tokens (lit ".") init in
  fst r = Done tt
  /\ dict_get (lit "X") (macros (snd r))
     = match last_define (lit "X") tokens with
       | Some m => Some m
       | None => dict_get (lit "X") (macros init)
       end.
Proof.
  apply (collect_macros_last_definition_wins ∅ 0
           [mk (DEFINE (lit "X") [] (lit "one")) 0 (lit "a.html");
            mk (IFDEF (lit "U")) 1 (lit "a.html");
            mk (DEFINE (lit "X") [lit "p"] (lit "two")) 2 (lit "a.html");
            mk ENDIF 3 (lit "a.html")] (lit ".") (lit "X") init).
  reflexivity.
Defined.

(** ** Pass 2 *)

(** X5: in a suppressed region, a run of tokens without [Else] and [Endif]
    emits nothing and changes nothing: text is dropped, an [Include] is not
    entered, an [Undef] removes nothing and an [Ifdef] pushes nothing. *)
Theorem suppressed_tokens_are_skipped
    (pi : Token -> str -> str -> M str) (tokens : list Token) (base_dir : str)
    (output : list str) (self : Preprocessor) :
  suppressed self = true ->
  forallb (fun t => negb (closes_region t)) tokens = true ->
  emit_loop pi tokens base_dir output self = (Done output, self).
Proof.
  intros Hs. revert output. induction tokens as [|t tokens IH]; intros output Hn;
    [reflexivity|].
  simpl in Hn. apply andb_true_iff in Hn. destruct Hn as [Ht Hn].
  assert (emit_token pi t base_dir self = (Done None, self)) as E.
  { unfold emit_token, bind, get. cbv beta iota. rewrite Hs.
    unfold closes_region in Ht. destruct (type t); try discriminate; reflexivity. }
  cbn [emit_loop]. unfold bind. rewrite E. apply IH. exact Hn.
Qed.

Lemma suppressed_tokens_are_skipped_witness :
  emit_loop (pass2_include ∅ 0)
    [mk (TEXT (lit "x")) 0 (lit "a.html"); mk (UNDEF (lit "GREET")) 1 (lit "a.html");
     mk (INCLUDE (lit "b.html")) 2 (lit "a.html")] (lit ".") []
    (set_conditional_stack (fun _ => [false]) (with_macros [(lit "GREET", macro_GREET)]))
  = (Done [],
     set_conditional_stack (fun _ => [false]) (with_macros [(lit "GREET", macro_GREET)])).
Proof.
  apply (suppressed_tokens_are_skipped (pass2_include ∅ 0)
           [mk (TEXT (lit "x")) 0 (lit "a.html"); mk (UNDEF (lit "GREET")) 1 (lit "a.html");
            mk (INCLUDE (lit "b.html")) 2 (lit "a.html")] (lit ".") []
           (set_conditional_stack (fun _ => [false])
              (with_macros [(lit "GREET", macro_GREET)])));
    reflexivity.
Defined.

Lemma suppressed_push (self : Preprocessor) (d : bool) :
  suppressed (set_conditional_stack (fun cs => cs ++ [d]) self) = negb d.
Proof. unfold suppressed. simpl. rewrite last_snoc. reflexivity. Qed.

Lemma emit_text_active pi value base_dir i filename self out :
  suppressed self = false -> process_text self value = Done out ->
  emit_token pi (mk (TEXT value) i filename) base_dir self = (Done (Some out), self).
Proof.
  intros Hs Hp. unfold emit_token, bind, get, lift. cbv beta iota. rewrite Hs.
  simpl. rewrite Hp. reflexivity.
Qed.

Lemma emit_text_suppressed pi value base_dir i filename self :
  suppressed self = true ->
  emit_token pi (mk (TEXT value) i filename) base_dir self = (Done None, self).
Proof.
  intros Hs. unfold emit_token, bind, get. cbv beta iota. rewrite Hs. reflexivity.
Qed.

Lemma handle_else_top i f self d :
  handle_conditional_directive (mk ELSE i f)
    (set_conditional_stack (fun cs => cs ++ [d]) self)
  = (Done tt, set_conditional_stack (fun cs => cs ++ [negb d]) self).
Proof.
  destruct self as [st ms ds cs].
  unfold handle_conditional_directive, bind, get, modify, set_conditional_stack.
  simpl. rewrite last_snoc. simpl. rewrite removelast_last. reflexivity.
Qed.

Lemma handle_endif_top i f self d :
  handle_conditional_directive (mk ENDIF i f)
    (set_conditional_stack (fun cs => cs ++ [d]) self)
  = (Done tt, self).
Proof.
  destruct self as [st ms ds cs].
  unfold handle_conditional_directive, bind, get, modify, set_conditional_stack.
  simpl. destruct (cs ++ [d]) eqn:E; [destruct cs; discriminate|]. rewrite <- E.
  simpl. rewrite removelast_last. reflexivity.
Qed.

Lemma emit_else_top pi i f base_dir self d :
  emit_token pi (mk ELSE i f) base_dir (set_conditional_stack (fun cs => cs ++ [d]) self)
  = (Done None, set_conditional_stack (fun cs => cs ++ [negb d]) self).
Proof.
  unfold emit_token, bind, get. cbv beta iota.
  destruct (suppressed _); cbn [type mk]; rewrite handle_else_top; reflexivity.
Qed.

Lemma emit_endif_top pi i f base_dir self d :
  emit_token pi (mk ENDIF i f) base_dir (set_conditional_stack (fun cs => cs ++ [d]) self)
  = (Done None, self).
Proof.
  unfold emit_token, bind, get. cbv beta iota.
  destruct (suppressed _); cbn [type mk]; rewrite handle_endif_top; reflexivity.
Qed.

(** X6: in an active region, the block [Ifdef(s)], text [a], [Else],
    text [b], [Endif] emits the expansion of [a] when [s] is a defined
    symbol and the expansion of [b] when it is not, and leaves the
    preprocessor as it found it, the conditional stack included; with
    [Ifndef] the two branches change places.  The text of the other branch
    is not looked at: only the branch that is emitted has to expand
    without error. *)
Theorem conditional_block_emits_one_branch
    (pi : Token -> str -> str -> M str) (base_dir filename sym a b out : str)
    (n1 n2 n3 n4 n5 : nat) (output : list str) (self : Preprocessor) :
  suppressed self = false ->
  (process_text self (if bool_decide (sym ∈ defined_symbols self) then a else b)
   = Done out ->
   emit_loop pi
     [mk (IFDEF sym) n1 filename; mk (TEXT a) n2 filename; mk ELSE n3 filename;
      mk (TEXT b) n4 filename; mk ENDIF n5 filename] base_dir output self
   = (Done (output ++ [out]), self))
  /\ (process_text self (if bool_decide (sym ∈ defined_symbols self) then b else a)
      = Done out ->
      emit_loop pi
        [mk (IFNDEF sym) n1 filename; mk (TEXT a) n2 filename; mk ELSE n3 filename;
         mk (TEXT b) n4 filename; mk ENDIF n5 filename] base_dir output self
      = (Done (output ++ [out]), self)).
Proof.
  intros Hs.
  assert (forall d : bool,
            process_text self (if d then a else b) = Done out ->
            emit_loop pi
              [mk (TEXT a) n2 filename; mk ELSE n3 filename;
               mk (TEXT b) n4 filename; mk ENDIF n5 filename] base_dir output
              (set_conditional_stack (fun cs => cs ++ [d]) self)
            = (Done (output ++ [out]), self)) as Hblock.
  { intros d Hout. cbn [emit_loop]. unfold bind.
    pose proof (suppressed_push self d) as Hd.
    destruct d; simpl in Hd.
    - rewrite (emit_text_active pi a base_dir n2 filename _ out Hd Hout).
      rewrite emit_else_top.
      rewrite emit_text_suppressed by (rewrite suppressed_push; reflexivity).
      rewrite emit_endif_top. reflexivity.
    - rewrite (emit_text_suppressed pi a base_dir n2 filename _ Hd).
      rewrite emit_else_top.
      rewrite (emit_text_active pi b base_dir n4 filename _ out)
        by (rewrite ?suppressed_push; auto).
      rewrite emit_endif_top. reflexivity. }
  split; intros Hout.
  - cbn [emit_loop]. unfold bind at 1.
    assert (emit_token pi (mk (IFDEF sym) n1 filename) base_dir self
            = (Done None, set_conditional_stack
                 (fun cs => cs ++ [bool_decide (sym ∈ defined_symbols self)]) self)) as ->.
    { unfold emit_token, bind, get. cbv beta iota. rewrite Hs. reflexivity. }
    apply (Hblock (bool_decide (sym ∈ defined_symbols self))). exact Hout.
  - cbn [emit_loop]. unfold bind at 1.
    assert (emit_token pi (mk (IFNDEF sym) n1 filename) base_dir self
            = (Done None, set_conditional_stack
                 (fun cs => cs ++ [negb (bool_decide (sym ∈ defined_symbols self))]) self))
      as ->.
    { unfold emit_token, bind, get. cbv beta iota. rewrite Hs. reflexivity. }
    apply (Hblock (negb (bool_decide (sym ∈ defined_symbols self)))).
    destruct (bool_decide (sym ∈ defined_symbols self)); exact Hout.
Qed.

(** The branch that is skipped holds a call with one argument too many,
    which would raise the arity error if it were expanded. *)
Lemma conditional_block_emits_one_branch_witness :
  let self := with_macros [(lit "GREET", macro_GREET)] in
  let block t a b :=
    [mk t 0 (lit "a.html"); mk (TEXT a) 1 (lit "a.html");
     mk ELSE 2 (lit "a.html"); mk (TEXT b) 3 (lit "a.html");
     mk ENDIF 4 (lit "a.html")] in
  process_text self (lit "GREET(a, b)")
  = Raise (ArityMismatch (lit "GREET") 1 2 (lit "a.html") 1)
  /\ emit_loop (pass2_include ∅ 0)
       (block (IFDEF (lit "GREET")) (lit "GREET(you)") (lit "GREET(a, b)"))
       (lit ".") [] self
     = (Done [lit "<p>hello, you</p>"], self)
  /\ emit_loop (pass2_include ∅ 0)
       (block (IFNDEF (lit "GREET")) (lit "GREET(a, b)") (lit "GREET(you)"))
       (lit ".") [] self
     = (Done [lit "<p>hello, you</p>"], self).
Proof.
  split; [reflexivity|]. split.
  - apply (conditional_block_emits_one_branch (pass2_include ∅ 0) (lit ".")
             (lit "a.html") (lit "GREET") (lit "GREET(you)") (lit "GREET(a, b)")
             (lit "<p>hello, you</p>") 0 1 2 3 4 []
             (with_macros [(lit "GREET", macro_GREET)])); reflexivity.
  - apply (conditional_block_emits_one_branch (pass2_include ∅ 0) (lit ".")
             (lit "a.html") (lit "GREET") (lit "GREET(a, b)") (lit "GREET(you)")
             (lit "<p>hello, you</p>") 0 1 2 3 4 []
             (with_macros [(lit "GREET", macro_GREET)])); reflexivity.
Defined.

(** ** Macro calls *)

(** X7: an argument list never holds an empty argument nor one with
    whitespace around it: an argument left empty in a call does not count
    for the arity. *)
Theorem parse_macro_args_are_trimmed (args_text arg : str) :
  In arg (parse_macro_args args_text) -> arg <> [] /\ strip arg = arg.
Proof.
  unfold parse_macro_args. intros H. apply in_map_iff in H.
  destruct H as (x & <- & Hx). apply filter_In in Hx. destruct Hx as [_ Hx].
  split; [|apply strip_idem]. intros E. rewrite E in Hx. discriminate.
Qed.

Lemma parse_macro_args_are_trimmed_witness :
  lit "b c" <> [] /\ strip (lit "b c") = lit "b c".
Proof.
  apply (parse_macro_args_are_trimmed (lit "a, , b c ,") (lit "b c")).
  right. left. reflexivity.
Defined.

Lemma match_call_at_inv (name s g r : str) :
  match_call_at name s = Some (g, r) ->
  exists ws, s = name ++ ws ++ "(" :: g ++ ")" :: r /\ forallb is_s ws = true.
Proof.
  unfold match_call_at. destruct (strip_prefix name s) as [t|] eqn:E; [|discriminate].
  apply strip_prefix_inv in E. subst s.
  destruct (span_app is_s t) as [Et Ws].
  destruct (snd (span is_s t)) as [|c r'] eqn:F; [discriminate|].
  destruct (eqc c "(") eqn:C.
  - apply eqc_eq in C. subst c. intros H. apply call_args_inv in H. subst r'.
    exists (fst (span is_s t)). split; [|exact Ws]. f_equal. exact Et.
  - intros H. exfalso. revert H C. clear.
    destruct c as [[] [] [] [] [] [] [] []]; simpl; try discriminate.
Qed.

Lemma search_call_inv (name s : str) : forall before g after,
  search_call name s = Some (before, g, after) ->
  exists ws,
    s = before ++ name ++ ws ++ "(" :: g ++ ")" :: after /\ forallb is_s ws = true.
Proof.
  induction s as [|c s IH]; intros before g after; simpl.
  - destruct (match_call_at name []) as [[g' r]|] eqn:E; [|discriminate].
    intros [= <- <- <-]. apply match_call_at_inv. exact E.
  - destruct (match_call_at name (c :: s)) as [[g' r]|] eqn:E.
    + intros [= <- <- <-]. apply match_call_at_inv. exact E.
    + destruct (search_call name s) as [[[b' g'] a']|] eqn:F; [|discriminate].
      intros [= <- <- <-]. destruct (IH b' g' a' eq_refl) as (ws & -> & W).
      exists ws. split; [reflexivity | exact W].
Qed.

(** X8: what [process_text] replaces is a whole call and nothing more: when
    the table holds one macro and its pattern matches, the line is the text
    before the match, the macro name, optional whitespace, the arguments
    between parentheses, and the text after the match; the result is the
    same line with the expansion in the place of the call. *)
Theorem process_text_replaces_the_call
    (self : Preprocessor) (name : str) (macro : Macro)
    (line before group1 after expansion : str) :
  macros self = [(name, macro)] ->
  search_call name line = Some (before, group1, after) ->
  expand_macro macro (parse_macro_args group1) = Done expansion ->
  (exists ws,
     line = before ++ name ++ ws ++ "(" :: group1 ++ ")" :: after
     /\ forallb is_s ws = true)
  /\ process_text self line = Done (before ++ expansion ++ after).
Proof.
  intros Hm Hs He. split; [apply search_call_inv; exact Hs|].
  unfold process_text. rewrite Hm. simpl. rewrite Hs, He. reflexivity.
Qed.

Lemma process_text_replaces_the_call_witness :
  (exists ws,
     lit "say GREET (you (and all)) twice"
     = lit "say " ++ lit "GREET" ++ ws ++ "(" :: lit "you (and all)" ++ ")" :: lit " twice"
     /\ forallb is_s ws = true)
  /\ process_text (with_macros [(lit "GREET", macro_GREET)])
       (lit "say GREET (you (and all)) twice")
     = Done (lit "say " ++ lit "<p>hello, you (and all)</p>" ++ lit " twice").
Proof.
  apply (process_text_replaces_the_call (with_macros [(lit "GREET", macro_GREET)])
           (lit "GREET") macro_GREET (lit "say GREET (you (and all)) twice")
           (lit "say ") (lit "you (and all)") (lit " twice")
           (lit "<p>hello, you (and all)</p>")); reflexivity.
Defined.

(** X9: a call whose number of arguments differs from the number of
    parameters stops the processing of the text with the arity error, which
    names the macro, both numbers, and the file and line where the macro was
    defined, not where it is called. *)
Theorem process_text_arity_mismatch
    (self : Preprocessor) (items1 items2 : dict) (name : str) (macro : Macro)
    (value line1 before group1 after : str) :
  macros self = items1 ++ (name, macro) :: items2 ->
  process_text (set_macros (fun _ => items1) self) value = Done line1 ->
  search_call name line1 = Some (before, group1, after) ->
  length (parse_macro_args group1) <> length (m_params macro) ->
  process_text self value
  = Raise (ArityMismatch (m_name macro) (length (m_params macro))
             (length (parse_macro_args group1)) (m_file macro) (m_line macro)).
Proof.
  unfold process_text. simpl. intros -> H1 Hs Hn.
  rewrite process_text_loop_app, H1. simpl. rewrite Hs. unfold expand_macro.
  apply Nat.eqb_neq in Hn. rewrite Hn. reflexivity.
Qed.

Lemma process_text_arity_mismatch_witness :
  process_text (with_macros [(lit "B", macro_B); (lit "GREET", macro_GREET)])
    (lit "GREET(a, b)")
  = Raise (ArityMismatch (lit "GREET") 1 2 (lit "a.html") 1).
Proof.
  apply (process_text_arity_mismatch
           (with_macros [(lit "B", macro_B); (lit "GREET", macro_GREET)])
           [(lit "B", macro_B)] [] (lit "GREET") macro_GREET
           (lit "GREET(a, b)") (lit "GREET(a, b)") [] (lit "a, b") []);
    try reflexivity.
  simpl. lia.
Defined.

(** X20: an argument is handed to [re.sub] as the replacement text, so a
    backslash in it is read as the start of an escape: in the argument
    [C:\temp] the backslash and the [t] become a TAB, and in [C:\dir] the
    backslash before [d], a letter that is no escape, stops the expansion
    with the error of [re.sub]. *)
Theorem expand_macro_reads_backslash_escapes :
  expand_macro macro_M [lit "C:\temp"]
  = Done (lit " x and C:" ++ "009" :: lit "emp ")
  /\ expand_macro macro_M [lit "C:\dir"] = Raise (BadReplacement (lit "C:\dir")).
Proof. vm_compute. split; reflexivity. Qed.

(** ** The lexer, line by line *)

(** X10: [#else] and [#endif] are recognised by their first characters
    alone: any line that begins with one of them, whatever follows on the
    line, gives the directive token, and the rest of the line is lost. *)
Theorem else_and_endif_match_by_prefix
    (ms : dict) (filename : str) (lines : list str) (i : nat) (raw : str)
    (tokens : list Token) :
  (startswith (strip raw) (lit "#else") = true ->
   tokenize_line ms filename lines i raw tokens
   = Done (tokens ++ [mk ELSE i filename], i + 1))
  /\ (startswith (strip raw) (lit "#endif") = true ->
      tokenize_line ms filename lines i raw tokens
      = Done (tokens ++ [mk ENDIF i filename], i + 1)).
Proof.
  unfold startswith. split; intros H;
    destruct (strip_prefix _ (strip raw)) as [rest|] eqn:E; try discriminate;
    apply strip_prefix_inv in E; unfold tokenize_line; rewrite E; reflexivity.
Qed.

(** X11: a [#define] line that the define pattern does not match, such as
    an object-like [#define NAME value] without a parenthesis, defines
    nothing: the lexer passes the line on as text. *)
Theorem unmatched_define_is_text
    (ms : dict) (filename : str) (lines : list str) (i : nat) (raw : str)
    (tokens : list Token) :
  startswith (strip raw) (lit "#define") = true ->
  match_define (strip raw) = None ->
  tokenize_line ms filename lines i raw tokens
  = Done (tokens ++ [mk (TEXT (strip raw)) i filename], i + 1).
Proof.
  unfold startswith. intros H Hm.
  destruct (strip_prefix _ (strip raw)) as [rest|] eqn:E; [|discriminate].
  apply strip_prefix_inv in E. unfold tokenize_line. rewrite Hm. rewrite E.
  cbn -[contains]. destruct (contains _ _); reflexivity.
Qed.

Lemma unmatched_define_is_text_witness :
  tokenize_line [] (lit "a.html") [lit "#define DEBUG 1"] 0 (lit "#define DEBUG 1") []
  = Done ([] ++ [mk (TEXT (strip (lit "#define DEBUG 1"))) 0 (lit "a.html")], 0 + 1).
Proof.
  apply (unmatched_define_is_text [] (lit "a.html") [lit "#define DEBUG 1"] 0
           (lit "#define DEBUG 1") []); reflexivity.
Defined.

(** X12: a line that begins with [#ifdef], [#ifndef] or [#undef] and names
    no symbol after whitespace gives no token at all and no error, so a
    conditional opened that way is not opened. *)
Theorem symbol_less_directive_yields_no_token
    (ms : dict) (filename : str) (lines : list str) (i : nat) (raw : str)
    (tokens : list Token) (directive : string) :
  In directive ["#ifdef"; "#ifndef"; "#undef"]%string ->
  startswith (strip raw) (lit directive) = true ->
  match_symbol (lit directive) (strip raw) = None ->
  tokenize_line ms filename lines i raw tokens = Done (tokens, i + 1).
Proof.
  unfold startswith. intros Hd H Hm.
  destruct (strip_prefix _ (strip raw)) as [rest|] eqn:E; [|discriminate].
  apply strip_prefix_inv in E. unfold tokenize_line.
  destruct Hd as [<-|[<-|[<-|[]]]]; rewrite Hm; rewrite E; reflexivity.
Qed.

Lemma symbol_less_directive_yields_no_token_witness :
  tokenize_line [] (lit "a.html") [lit "#ifdef"] 0 (lit "#ifdef") [] = Done ([], 0 + 1).
Proof.
  apply (symbol_less_directive_yields_no_token [] (lit "a.html") [lit "#ifdef"] 0
           (lit "#ifdef") [] "#ifdef"); [left; reflexivity | reflexivity..].
Defined.

Lemma else_and_endif_match_by_prefix_witness :
  tokenize_line [] (lit "a.html") [lit "#elsewhere"] 0 (lit "#elsewhere") []
  = Done ([] ++ [mk ELSE 0 (lit "a.html")], 0 + 1)
  /\ tokenize_line [] (lit "a.html") [lit "#endiffy"] 0 (lit "#endiffy") []
     = Done ([] ++ [mk ENDIF 0 (lit "a.html")], 0 + 1).
Proof.
  split.
  - apply (proj1 (else_and_endif_match_by_prefix [] (lit "a.html") [lit "#elsewhere"]
                    0 (lit "#elsewhere") [])). reflexivity.
  - apply (proj2 (else_and_endif_match_by_prefix [] (lit "a.html") [lit "#endiffy"]
                    0 (lit "#endiffy") [])). reflexivity.
Defined.

(** ** The lexer, over a file *)

Lemma collect_loop_open (rest : list str) : forall i body pc,
  stays_open pc rest = true ->
  collect_loop rest i body pc
  = Done (join [nl] (body ++ map rstrip rest), i + length rest).
Proof.
  induction rest as [|l rest IH]; intros i body pc H; simpl in *.
  - rewrite app_nil_r. f_equal. f_equal. lia.
  - apply andb_true_iff in H. destruct H as [H1 H2]. rewrite H1.
    rewrite (IH _ _ _ H2). rewrite <- app_assoc. simpl. f_equal. f_equal. lia.
Qed.

(** X13: a [#define] whose parentheses never close is no error: the lexer
    takes every line from the directive to the end of the file as the
    macro body, and the file has no token after that [Define]. *)
Theorem unclosed_define_swallows_the_file
    (fuel : nat) (ms : dict) (filename : str) (lines : list str) (i : nat)
    (raw name : str) (group2 : option str) (tokens : list Token) :
  lines !! i = Some raw ->
  startswith (strip raw) (lit "#define") = true ->
  match_define (strip raw) = Some (name, group2) ->
  stays_open 0 (drop i lines) = true ->
  tokenize_loop (S fuel) ms filename lines i tokens
  = Done (tokens ++ [mk (DEFINE name (params_of group2)
                           (join [nl] (map rstrip (drop i lines)))) i filename]).
Proof.
  intros Hi Hs Hm Ho.
  assert (tokenize_line ms filename lines i raw tokens
          = Done (tokens ++ [mk (DEFINE name (params_of group2)
                                   (join [nl] (map rstrip (drop i lines)))) i filename],
                  length lines + 1)) as E.
  { unfold startswith in Hs.
    destruct (strip_prefix _ (strip raw)) as [rest|] eqn:E; [|discriminate].
    apply strip_prefix_inv in E. unfold tokenize_line. rewrite Hm.
    unfold collect_macro_body. rewrite (collect_loop_open _ _ _ _ Ho).
    rewrite length_drop. apply lookup_lt_Some in Hi.
    replace (i + (length lines - i)) with (length lines) by lia.
    rewrite E. reflexivity. }
  cbn [tokenize_loop]. rewrite Hi, E.
  destruct fuel; simpl; rewrite lookup_ge_None_2 by lia; reflexivity.
Qed.

Lemma unclosed_define_swallows_the_file_witness :
  tokenize_loop 1 [] (lit "a.html") [lit "#define BOX(t)(<div>"; lit "{t}"; lit "<p>end</p>"] 0 []
  = Done ([] ++ [mk (DEFINE (lit "BOX") (params_of (Some (lit "t")))
                       (join [nl] (map rstrip
                          (drop 0 [lit "#define BOX(t)(<div>"; lit "{t}"; lit "<p>end</p>"]))))
                    0 (lit "a.html")]).
Proof.
  apply (unclosed_define_swallows_the_file 0 [] (lit "a.html")
           [lit "#define BOX(t)(<div>"; lit "{t}"; lit "<p>end</p>"] 0
           (lit "#define BOX(t)(<div>") (lit "BOX") (Some (lit "t")) []);
    reflexivity.
Defined.

Lemma tokenize_line_shape ms filename lines i raw tokens tokens' j :
  tokenize_line ms filename lines i raw tokens = Done (tokens', j) ->
  i < j /\ (tokens' = tokens \/ exists ty, tokens' = tokens ++ [mk ty i filename]).
Proof.
  unfold tokenize_line.
  pose proof (collect_macro_body_index lines i) as Hd.
  pose proof (collect_macro_body_index (drop i lines) 0) as Hc.
  destruct (strip raw) as [|c l];
    [intros [= <- <-]; split; [lia | left; reflexivity]|].
  repeat match goal with
         | |- context [if ?b then _ else _] => destruct b
         | |- context [match match_include ?x with _ => _ end] => destruct (match_include x)
         | |- context [match match_define ?x with _ => _ end] =>
             destruct (match_define x) as [[? ?]|]
         | |- context [match match_symbol ?x ?y with _ => _ end] => destruct (match_symbol x y)
         | |- context [match match_call_head ?x with _ => _ end] => destruct (match_call_head x)
         | |- context [match collect_macro_body ?x ?y with _ => _ end] =>
             destruct (collect_macro_body x y) as [[? ?]| |]
         end; try discriminate;
    intros [= <- <-]; (split; [lia|]);
    first [left; reflexivity | right; eexists; reflexivity].
Qed.

Lemma tokenize_loop_positions ms filename lines : forall fuel i tokens tokens',
  Forall (fun t => file t = filename /\ 1 <= line_number t <= length lines
                   /\ line_number t <= i) tokens ->
  StronglySorted lt (map line_number tokens) ->
  tokenize_loop fuel ms filename lines i tokens = Done tokens' ->
  Forall (fun t => file t = filename /\ 1 <= line_number t <= length lines) tokens'
  /\ StronglySorted lt (map line_number tokens').
Proof.
  induction fuel as [|fuel IH]; intros i tokens tokens' Hf Hs; simpl.
  - destruct (lines !! i); [discriminate|]. intros [= <-]. split; [|exact Hs].
    eapply Forall_impl; [exact Hf|]. simpl. tauto.
  - destruct (lines !! i) as [raw|] eqn:Hi.
    + destruct (tokenize_line ms filename lines i raw tokens) as [[t1 j]| |] eqn:E;
        try discriminate.
      apply tokenize_line_shape in E. destruct E as [Hj Ht].
      apply IH.
      * destruct Ht as [->|[ty ->]].
        -- eapply Forall_impl; [exact Hf|]. simpl. intros t (? & ? & ?).
           repeat split; try tauto; lia.
        -- apply Forall_app. split.
           ++ eapply Forall_impl; [exact Hf|]. simpl. intros t (? & ? & ?).
              repeat split; try tauto; lia.
           ++ constructor; [|constructor]. simpl. apply lookup_lt_Some in Hi.
              repeat split; lia.
      * destruct Ht as [->|[ty ->]]; [exact Hs|].
        rewrite map_app. simpl. clear - Hf Hs.
        induction tokens as [|t tokens IHt]; simpl.
        -- constructor; constructor.
        -- inversion Hf; subst. inversion Hs; subst. constructor.
           ++ apply IHt; assumption.
           ++ apply Forall_app. split; [assumption|]. constructor; [|constructor].
              destruct H1 as (_ & _ & ?). lia.
    + intros [= <-]. split; [|exact Hs].
      eapply Forall_impl; [exact Hf|]. simpl. tauto.
Qed.

(** X14: every token of a file carries the name of that file and the
    number of a line of it, counted from one, and the tokens come in the
    order of their lines, no two on the same line. *)
Theorem tokenize_positions
    (ms : dict) (content filename : str) (tokens : list Token) :
  tokenize ms content filename = Done tokens ->
  Forall (fun t => file t = filename
                   /\ 1 <= line_number t <= length (split nl content)) tokens
  /\ StronglySorted lt (map line_number tokens).
Proof.
  unfold tokenize. apply tokenize_loop_positions; constructor.
Qed.

Lemma tokenize_positions_witness :
  Forall (fun t => file t = lit "a.html"
                   /\ 1 <= line_number t <= length (split nl define_undef_file))
    [mk (DEFINE (lit "X") [] (lit "#define X()(v")) 0 (lit "a.html");
     mk (UNDEF (lit "X")) 1 (lit "a.html")]
  /\ StronglySorted lt
       (map line_number
          [mk (DEFINE (lit "X") [] (lit "#define X()(v")) 0 (lit "a.html");
           mk (UNDEF (lit "X")) 1 (lit "a.html")]).
Proof.
  apply (tokenize_positions [] define_undef_file (lit "a.html")). reflexivity.
Defined.

(** ** Writing and reading an argument list *)

Lemma parse_macro_args_pieces (args_text : str) :
  parse_macro_args args_text
  = List.filter nonempty
      (map strip (split_top_level 0 (concat (map strip (split nl args_text))))).
Proof.
  unfold parse_macro_args. rewrite arg_lines_concat.
  change (map strip (List.filter _ ?l)) with
    (finish_args (fold_left arg_char (concat (map strip (split nl args_text)))
       {| args := []; current_arg := []; paren_count := 0 |})).
  rewrite arg_chars_spec. simpl. rewrite prepend_nil. reflexivity.
Qed.

Lemma plain_char_inv (c : ascii) :
  plain_char c = true ->
  eqc c "," = false /\ eqc c "(" = false /\ eqc c ")" = false /\ eqc c nl = false.
Proof.
  unfold plain_char. intros H. apply negb_true_iff in H.
  repeat (apply orb_false_elim in H; destruct H as [H ?]). auto.
Qed.

Lemma split_absent (sep : ascii) (s : str) :
  forallb (fun c => negb (eqc c sep)) s = true -> split sep s = [s].
Proof.
  induction s as [|c s IH]; simpl; [reflexivity|]. intros H.
  apply andb_true_iff in H. destruct H as [Hc H].
  apply negb_true_iff in Hc. rewrite Hc, (IH H). reflexivity.
Qed.

Lemma split_top_level_plain (a rest : str) :
  forallb plain_char a = true ->
  split_top_level 0 (a ++ rest) = prepend a (split_top_level 0 rest).
Proof.
  induction a as [|c a IH]; intros H; simpl.
  - rewrite prepend_nil. reflexivity.
  - simpl in H. apply andb_true_iff in H. destruct H as [Hc H].
    destruct (plain_char_inv c Hc) as (H1 & H2 & H3 & _).
    unfold count_paren. rewrite H1, H2, H3. simpl. rewrite (IH H).
    destruct (split_top_level_cons 0 rest) as (h & t & ->). reflexivity.
Qed.

Lemma split_top_level_join (args : list str) :
  args <> [] -> Forall (fun a => forallb plain_char a = true) args ->
  split_top_level 0 (join [","] args) = args.
Proof.
  intros Hne H. induction H as [|a args Ha H IH]; [contradiction|].
  destruct args as [|b args].
  - simpl. rewrite <- (app_nil_r a) at 1. rewrite split_top_level_plain by exact Ha.
    simpl. rewrite app_nil_r. reflexivity.
  - change (join [","] (a :: b :: args)) with (a ++ "," :: join [","] (b :: args)).
    rewrite split_top_level_plain by exact Ha.
    change (split_top_level 0 ("," :: join [","] (b :: args)))
      with ([] :: split_top_level 0 (join [","] (b :: args))).
    rewrite IH by discriminate. simpl. rewrite app_nil_r. reflexivity.
Qed.

Lemma lstrip_head (s t : str) (c : ascii) : lstrip s = c :: t -> isspace c = false.
Proof.
  induction s as [|a s IH]; simpl; [discriminate|].
  destruct (isspace a) eqn:E; [exact IH|]. intros [= <- _]. exact E.
Qed.

Lemma trimmed_first (a : str) :
  a <> [] -> strip a = a -> exists c t, a = c :: t /\ isspace c = false.
Proof.
  intros Hne H. destruct a as [|c t]; [contradiction|].
  exists c, t. split; [reflexivity|]. unfold strip in H.
  apply (lstrip_head _ _ _ H).
Qed.

Lemma trimmed_last (a : str) :
  a <> [] -> strip a = a -> exists t c, a = t ++ [c] /\ isspace c = false.
Proof.
  intros Hne H. unfold strip in H. rewrite <- rstrip_lstrip in H. unfold rstrip in H.
  apply (f_equal (@rev ascii)) in H. rewrite rev_involutive in H.
  destruct (rev a) as [|c t] eqn:E.
  - apply (f_equal (@rev ascii)) in E. rewrite rev_involutive in E. contradiction.
  - exists (rev t), c. split; [|apply (lstrip_head _ _ _ H)].
    apply (f_equal (@rev ascii)) in E. rewrite rev_involutive in E. exact E.
Qed.

Lemma strip_ends (s t u : str) (c d : ascii) :
  s = c :: t -> s = u ++ [d] -> isspace c = false -> isspace d = false ->
  strip s = s.
Proof.
  intros E1 E2 Hc Hd. unfold strip.
  assert (rstrip s = s) as ->.
  { rewrite E2. unfold rstrip. rewrite rev_unit. simpl. rewrite Hd.
    simpl. rewrite rev_involutive. reflexivity. }
  rewrite E1. simpl. rewrite Hc. reflexivity.
Qed.

Lemma join_cons (sep b : str) (l : list str) :
  l <> [] -> join sep (b :: l) = b ++ sep ++ join sep l.
Proof. destruct l; [contradiction | reflexivity]. Qed.

Lemma join_last (sep : str) (args : list str) (a u : str) (d : ascii) :
  a = u ++ [d] -> exists v, join sep (args ++ [a]) = v ++ [d].
Proof.
  intros ->. induction args as [|b args [v IH]].
  - exists u. reflexivity.
  - exists (b ++ sep ++ v). rewrite <- app_comm_cons.
    rewrite join_cons by (destruct args; discriminate).
    rewrite IH. rewrite <- !app_assoc. reflexivity.
Qed.

Lemma plain_arg_inv (a : str) :
  plain_arg a = true -> a <> [] /\ strip a = a /\ forallb plain_char a = true.
Proof.
  unfold plain_arg. intros H. apply andb_true_iff in H. destruct H as [H H3].
  apply andb_true_iff in H. destruct H as [H1 H2]. apply str_eqb_eq in H2.
  split; [intros ->; discriminate | auto].
Qed.

(** X15: writing arguments into a call and reading them back gives the
    same arguments: when every argument is non-empty, has no whitespace
    around it and holds no comma, parenthesis or newline, the argument
    parser returns the list whose elements were joined by commas. *)
Theorem parse_macro_args_of_joined (args : list str) :
  forallb plain_arg args = true ->
  parse_macro_args (join [","] args) = args.
Proof.
  intros H. destruct args as [|a0 args0] eqn:Eargs; [reflexivity|]. rewrite <- Eargs in *.
  assert (args <> []) as Hne by (rewrite Eargs; discriminate).
  assert (Forall (fun a => a <> [] /\ strip a = a /\ forallb plain_char a = true) args)
    as Hall.
  { apply Forall_forall. intros a Ha. apply plain_arg_inv.
    rewrite forallb_forall in H. apply H. apply list_elem_of_In. exact Ha. }
  assert (Forall (fun a => forallb plain_char a = true) args) as Hplain
    by (eapply Forall_impl; [exact Hall | simpl; tauto]).
  rewrite parse_macro_args_pieces.
  assert (forallb (fun c => negb (eqc c nl)) (join [","] args) = true) as Hnl.
  { clear - Hplain. induction Hplain as [|a args Ha _ IH]; [reflexivity|].
    assert (forallb (fun c => negb (eqc c nl)) a = true) as Ha'.
    { rewrite forallb_forall in *. intros c Hc.
      destruct (plain_char_inv c (Ha c Hc)) as (_ & _ & _ & ->). reflexivity. }
    destruct args as [|b args]; [exact Ha'|].
    change (join [","] (a :: b :: args)) with (a ++ "," :: join [","] (b :: args)).
    rewrite forallb_app, Ha'. simpl. exact IH. }
  rewrite (split_absent _ _ Hnl). simpl. rewrite app_nil_r.
  assert (strip (join [","] args) = join [","] args) as ->.
  { rewrite Eargs in Hall. inversion Hall as [|x l (Hx1 & Hx2 & _) Hrest]; subst.
    destruct (trimmed_first a0 Hx1 Hx2) as (c & t & Ec & Hc).
    assert (exists pre z, a0 :: args0 = pre ++ [z] /\ z <> [] /\ strip z = z)
      as (pre & z & Ez & Hz1 & Hz2).
    { destruct (exists_last (l:=a0 :: args0)) as (pre & z & Ez); [discriminate|].
      exists pre, z. split; [exact Ez|].
      rewrite Forall_forall in Hall.
      destruct (Hall z) as (? & ? & _); [|auto].
      rewrite Ez. apply list_elem_of_In, in_or_app. right. left. reflexivity. }
    destruct (trimmed_last z Hz1 Hz2) as (u & d & Ed & Hd).
    destruct (join_last [","] pre z u d Ed) as (v & Ev).
    rewrite Ez. apply (strip_ends _ (t ++ match args0 with [] => [] | _ => "," :: join [","] args0 end) v c d);
      [|exact Ev|exact Hc|exact Hd].
    rewrite <- Ez, Ec. destruct args0; simpl; [rewrite app_nil_r|]; reflexivity. }
  rewrite (split_top_level_join _ Hne Hplain).
  clear - Hall. induction Hall as [|a args (H1 & H2 & _) _ IH]; [reflexivity|].
  simpl. rewrite H2. destruct a; [contradiction|]. simpl. f_equal. exact IH.
Qed.

Lemma parse_macro_args_of_joined_witness :
  parse_macro_args (join [","] [lit "Title"; lit "two words"; lit "<b>x</b>"])
  = [lit "Title"; lit "two words"; lit "<b>x</b>"].
Proof.
  apply (parse_macro_args_of_joined [lit "Title"; lit "two words"; lit "<b>x</b>"]).
  reflexivity.
Defined.

(** ** Includes *)

Lemma collect_macros_without_include fs fuel base_dir : forall tokens self,
  forallb (fun t => negb (is_include t)) tokens = true ->
  fst (collect_macros fs fuel tokens base_dir self) = Done tt.
Proof.
  intros tokens self H.
  apply (collect_macros_last_definition_wins_aux fs fuel tokens base_dir self H).
Qed.

(** X16: pass 1 opens every include of the token list, also one that
    stands in a region pass 2 would suppress: when the first [Include] of
    a file names a file that cannot be read, processing the tokens raises
    the error of [open], whatever conditionals surround the directive. *)
Theorem guarded_include_is_still_opened
    (fs : gmap str str) (fuel : nat) (pre post : list Token) (token : Token)
    (value base_dir : str) (self : Preprocessor) :
  forallb (fun t => negb (is_include t)) pre = true ->
  type token = INCLUDE value ->
  fs !! include_path (file token) value = None ->
  include_path (file token) value ∉ include_stack self ->
  fst (process_tokens fs (S fuel) (pre ++ token :: post) base_dir self)
  = Raise (FileNotFound (include_path (file token) value)).
Proof.
  intros Hpre Hty Hf Hst. rewrite process_tokens_eq. unfold bind at 1.
  rewrite collect_macros_eq, for_each_app. unfold bind at 1.
  rewrite <- collect_macros_eq.
  pose proof (collect_macros_without_include fs (S fuel) base_dir pre self Hpre) as H1.
  pose proof (collect_macros_stack fs base_dir (S fuel) pre self) as H2.
  destruct (collect_macros fs (S fuel) pre base_dir self) as [o s1]. simpl in H1, H2.
  subst o. cbn [for_each]. unfold bind at 1. unfold collect_token at 1. rewrite Hty.
  unfold pass1_include. rewrite process_include_macros_with_eq. cbv zeta.
  rewrite H2. rewrite bool_decide_eq_false_2 by exact Hst. rewrite Hf. reflexivity.
Qed.

Lemma guarded_include_is_still_opened_witness :
  fst (process_tokens ∅ 1 guarded_include_tokens (lit ".") init)
  = Raise (FileNotFound (lit "missing.html")).
Proof.
  apply (guarded_include_is_still_opened ∅ 0
           [mk (IFDEF (lit "UNDEFINED")) 0 (lit "a.html")]
           [mk ENDIF 2 (lit "a.html")]
           (mk (INCLUDE (lit "missing.html")) 1 (lit "a.html"))
           (lit "missing.html") (lit ".") init).
  - reflexivity.
  - reflexivity.
  - reflexivity.
  - simpl. apply not_elem_of_nil.
Defined.

(** X17: in an active region, an [Include] of a file without directives
    and macro calls emits the non-blank lines of that file, trimmed and
    joined by newlines, and leaves the preprocessor as it was, the include
    stack included. *)
Theorem include_of_plain_file
    (fs : gmap str str) (fuel : nat) (token : Token) (value base_dir content : str)
    (self : Preprocessor) :
  type token = INCLUDE value ->
  fs !! include_path (file token) value = Some content ->
  suppressed self = false ->
  Forall (plain_line (macros self)) (split nl content) ->
  emit_token (pass2_include fs (S fuel)) token base_dir self
  = (Done (Some (join [nl] (List.filter nonempty (map strip (split nl content))))),
     self).
Proof.
  intros Hty Hf Hs Hp. unfold emit_token, bind, get. cbv beta iota.
  rewrite Hs, Hty. unfold pass2_include. rewrite process_include_with_eq. cbv zeta.
  rewrite Hf. unfold tokenize.
  rewrite (tokenize_loop_plain _ _ _ Hp) by lia. simpl app. rewrite drop_0.
  rewrite process_tokens_eq. unfold bind.
  rewrite collect_macros_text.
  rewrite (emit_loop_text _ _ _ (push_include (include_path (file token) value) self));
    [|exact Hs|exact Hp].
  simpl. unfold ret. rewrite filter_nonempty_idem.
  destruct self as [st ms ds cs]. unfold pop_include, push_include, set_include_stack.
  simpl. rewrite removelast_last. reflexivity.
Qed.

Lemma include_of_plain_file_witness :
  emit_token (pass2_include {[ lit "b.html" := plain_file ]} 1)
    (mk (INCLUDE (lit "b.html")) 0 (lit "a.html")) (lit ".")
    (with_macros [(lit "GREET", macro_GREET)])
  = (Done (Some (join [nl] (List.filter nonempty (map strip (split nl plain_file))))),
     with_macros [(lit "GREET", macro_GREET)]).
Proof.
  apply (include_of_plain_file {[ lit "b.html" := plain_file ]} 0
           (mk (INCLUDE (lit "b.html")) 0 (lit "a.html")) (lit "b.html") (lit ".")
           plain_file (with_macros [(lit "GREET", macro_GREET)])).
  - reflexivity.
  - reflexivity.
  - reflexivity.
  - apply plain_lines_sound. reflexivity.
Defined.

(** ** Termination *)

Lemma for_each_done_steps {A} (I : Preprocessor -> Prop) (l : list A) (f : A -> M unit) :
  (forall x s, In x l -> I s -> fst (f x s) = Done tt -> I (snd (f x s))) ->
  forall self s', I self -> for_each l f self = (Done tt, s') ->
  forall x, In x l -> exists s, I s /\ fst (f x s) = Done tt.
Proof.
  induction l as [|y l IH]; intros Hf self s' HI Hd x Hx; [destruct Hx|].
  simpl in Hd. unfold bind in Hd.
  pose proof (Hf y self (or_introl eq_refl) HI) as Hy.
  destruct (f y self) as [[[]| |] s1] eqn:E; try discriminate. simpl in Hy.
  destruct Hx as [->|Hx].
  - exists self. rewrite E. auto.
  - apply (IH (fun z s Hz => Hf z s (or_intror Hz)) s1 s' (Hy eq_refl) Hd x Hx).
Qed.

(** When pass 1 succeeds, every include of the list names a file that can
    be read and is not on the include stack. *)
Lemma collect_macros_done_includes fs fuel tokens base_dir self s' :
  collect_macros fs fuel tokens base_dir self = (Done tt, s') ->
  forall token value,
    In token tokens -> type token = INCLUDE value ->
    (include_path (file token) value ∉ include_stack self)
    /\ is_Some (fs !! include_path (file token) value).
Proof.
  rewrite collect_macros_eq. intros Hd token value Hin Hty.
  assert (forall x s, In x tokens -> include_stack s = include_stack self ->
            fst (collect_token (pass1_include fs fuel) x base_dir s) = Done tt ->
            include_stack (snd (collect_token (pass1_include fs fuel) x base_dir s))
            = include_stack self) as Hpres.
  { intros x s _ Hs _.
    pose proof (collect_macros_stack fs base_dir fuel [x] s) as H.
    rewrite collect_macros_eq in H. simpl in H. unfold bind in H.
    destruct (collect_token (pass1_include fs fuel) x base_dir s) as [[[]| |] s1];
      simpl in *; congruence. }
  destruct (for_each_done_steps (fun s => include_stack s = include_stack self)
              tokens (fun token => collect_token (pass1_include fs fuel) token base_dir)
              Hpres self s' eq_refl Hd token Hin) as (s & Hs & Hstep).
  unfold collect_token in Hstep. rewrite Hty in Hstep. unfold pass1_include in Hstep.
  destruct fuel as [|fuel]; [discriminate|].
  rewrite process_include_macros_with_eq in Hstep. cbv zeta in Hstep.
  rewrite Hs in Hstep.
  case_bool_decide as Hst; [discriminate|].
  destruct (fs !! include_path (file token) value) eqn:Hf; [|discriminate].
  split; [exact Hst | eauto].
Qed.

Lemma emit_loop_inv (I : Preprocessor -> Prop) (P : outcome (list str) -> Prop)
    pi base_dir (l : list Token) :
  (forall o, P (Done o)) ->
  (forall token self, In token l -> I self ->
     I (snd (emit_token pi token base_dir self))
     /\ match fst (emit_token pi token base_dir self) with
        | Done _ => True
        | Raise e => P (Raise e)
        | Timeout => P Timeout
        end) ->
  forall output self, I self -> P (fst (emit_loop pi l base_dir output self)).
Proof.
  intros HP. induction l as [|t l IH]; intros Hf output self HI; simpl; [apply HP|].
  unfold bind. destruct (Hf t self (or_introl eq_refl) HI) as [H1 H2].
  destruct (emit_token pi t base_dir self) as [[o| |] s]; simpl in *; try exact H2.
  apply IH; [|exact H1]. intros y s' Hy. apply Hf. right. exact Hy.
Qed.

Lemma process_tokens_ends fs base_dir : forall fuel tokens self,
  size (unvisited fs self) < fuel ->
  fst (process_tokens fs fuel tokens base_dir self) <> Timeout.
Proof.
  induction fuel as [|fuel IH]; intros tokens self Hsz; [lia|].
  rewrite process_tokens_eq. unfold bind at 1.
  destruct (collect_macros_ends fs base_dir (S fuel) tokens self) as [Hst Hnt].
  pose proof (collect_macros_done_includes fs (S fuel) tokens base_dir self) as Hinc.
  destruct (collect_macros fs (S fuel) tokens base_dir self) as [[[]| |] s1];
    simpl in *; [|discriminate|exfalso; exact (Hnt Hsz eq_refl)].
  specialize (Hst eq_refl). specialize (Hinc s1 eq_refl).
  unfold bind.
  assert (fst (emit_loop (pass2_include fs (S fuel)) tokens base_dir [] s1) <> Timeout)
    as H.
  { apply (emit_loop_inv (fun s => include_stack s = include_stack self)
             (fun o => o <> Timeout)); [discriminate| |exact Hst].
    intros token s Hin Hs. split.
    - rewrite emit_token_stack; [exact Hs|].
      intros value s'. apply pass2_include_stack.
      intros fuel' tokens' self' [= <-]. apply process_tokens_stack.
    - unfold emit_token, bind, get. cbv beta iota.
      destruct (suppressed s).
      + destruct (type token); try exact I;
          destruct (handle_conditional_directive token s) as [[[]| |] s'] eqn:E;
          simpl; try exact I; try discriminate;
          unfold handle_conditional_directive in E; rewrite ?E in *;
          exfalso; revert E; clear;
          destruct (type token); unfold bind, get, modify, raise, ret; simpl;
          repeat match goal with
                 | |- context [match ?x with _ => _ end] => destruct x
                 end; discriminate.
      + destruct (type token) eqn:Hty; try exact I.
        * unfold pass2_include. rewrite process_include_with_eq. cbv zeta.
          destruct (Hinc token value Hin Hty) as [Hq [content Hf]]. rewrite Hf.
          pose proof (tokenize_total (macros s) content (include_path (file token) value))
            as Ht.
          destruct (tokenize _ _ _) as [tokens'| |]; simpl;
            [|discriminate|contradiction].
          assert (size (unvisited fs (push_include (include_path (file token) value) s))
                  < fuel) as Hlt.
          { assert (include_path (file token) value ∉ include_stack s) as Hq'
              by (rewrite Hs; exact Hq).
            pose proof (unvisited_push fs _ s (mk_is_Some _ _ Hf) Hq') as Hlt.
            assert (unvisited fs s = unvisited fs self) as E
              by (unfold unvisited; rewrite Hs; reflexivity).
            rewrite E in Hlt. lia. }
          pose proof (IH tokens' _ Hlt) as Hr.
          destruct (process_tokens fs fuel tokens' base_dir _) as [[o| |] s'];
            simpl in *; [exact I | discriminate | contradiction].
        * destruct (handle_conditional_directive token s) as [[[]| |] s'] eqn:E;
            simpl; try exact I; try discriminate.
          exfalso. revert E. unfold handle_conditional_directive. rewrite Hty.
          unfold modify. discriminate.
        * destruct (handle_conditional_directive token s) as [[[]| |] s'] eqn:E;
            simpl; try exact I; try discriminate.
          exfalso. revert E. unfold handle_conditional_directive. rewrite Hty.
          unfold modify. discriminate.
        * destruct (handle_conditional_directive token s) as [[[]| |] s'] eqn:E;
            simpl; try exact I; try discriminate.
          exfalso. revert E. unfold handle_conditional_directive. rewrite Hty.
          unfold bind, get, modify, raise. simpl.
          destruct (last (conditional_stack s)); discriminate.
        * destruct (handle_conditional_directive token s) as [[[]| |] s'] eqn:E;
            simpl; try exact I; try discriminate.
          exfalso. revert E. unfold handle_conditional_directive. rewrite Hty.
          unfold bind, get, modify, raise. simpl.
          destruct (conditional_stack s); discriminate.
        * unfold lift.
          destruct (process_text s value) eqn:E; simpl; try exact I; try discriminate.
          exfalso. unfold process_text in E. revert E. generalize value. clear.
          induction (macros s) as [|[n m] items IHi]; intros line; simpl; [discriminate|].
          destruct (search_call n line) as [[[b g] a]|]; [|apply IHi].
          unfold expand_macro. destruct (negb _); [discriminate|].
          assert (forall pairs body, substitute pairs body <> Timeout) as Hsub.
          { induction pairs as [|[p x] pairs IHp]; intros body; simpl; [discriminate|].
            destruct (sub_placeholder p x body); [apply IHp | discriminate]. }
          destruct (substitute _ _) eqn:F; try discriminate; [apply IHi|].
          intros _. apply (Hsub _ _ F). }
  destruct (emit_loop (pass2_include fs (S fuel)) tokens base_dir [] s1) as [[o| |] s2];
    simpl in *; [discriminate | discriminate | contradiction].
Qed.

(** X18: processing a file always ends.  The recursion through includes is
    bounded by the number of files: with a bound on the include depth
    above it, the processing ends with an output or with an error, never
    by reaching the bound. *)
Theorem process_file_terminates
    (fs : gmap str str) (fuel : nat) (filepath base_dir : str) (self : Preprocessor) :
  size (dom fs) < fuel ->
  fst (process_file fs fuel filepath base_dir self) <> Timeout.
Proof.
  intros Hfuel. unfold process_file, read_file, bind, get, lift, ret.
  destruct (fs !! filepath) as [content|]; simpl; [|discriminate].
  pose proof (tokenize_total (macros self) content filepath) as Ht.
  destruct (tokenize (macros self) content filepath) as [tokens| |]; simpl;
    [|discriminate|contradiction].
  assert (size (unvisited fs self) < fuel) as Hsz.
  { eapply Nat.le_lt_trans; [|exact Hfuel]. apply subseteq_size.
    unfold unvisited. set_solver. }
  pose proof (process_tokens_ends fs base_dir fuel tokens self Hsz) as H.
  destruct (process_tokens fs fuel tokens base_dir self) as [[o| |] s]; simpl in *;
    [discriminate | discriminate | contradiction].
Qed.

Lemma process_file_terminates_witness :
  fst (process_file cycle_fs 3 (lit "a.html") (lit ".") init) <> Timeout.
Proof.
  apply (process_file_terminates cycle_fs 3 (lit "a.html") (lit ".") init).
  vm_compute. lia.
Defined.

(** ** Pass 1 only adds *)

(** X19: pass 1 never removes anything: a macro name that is in the table,
    and a symbol that is defined, before the macros of a token list are
    collected are still there afterwards, however the collection ends. *)
Theorem collect_macros_only_adds
    (fs : gmap str str) (fuel : nat) (tokens : list Token) (base_dir k : str)
    (self : Preprocessor) :
  let r := collect_macros fs fuel tokens base_dir self in
  (dict_mem k (macros self) = true -> dict_mem k (macros (snd r)) = true)
  /\ (k ∈ defined_symbols self -> k ∈ defined_symbols (snd r)).
Proof.
  cbv zeta. split; intros H.
  - apply (collect_macros_keeps (fun s => dict_mem k (macros s) = true)); auto.
    intros name m s Hs. simpl. apply dict_mem_set_iff. right. exact Hs.
  - apply (collect_macros_keeps (fun s => k ∈ defined_symbols s)); auto.
    intros name m s Hs. simpl. set_solver.
Qed.

Lemma collect_macros_only_adds_witness :
  let r := collect_macros ∅ 0 guarded_include_tokens (lit ".")
             (with_macros [(lit "GREET", macro_GREET)]) in
  dict_mem (lit "GREET") (macros (snd r)) = true
  /\ lit "GREET" ∈ defined_symbols (snd r).
Proof.
  destruct (collect_macros_only_adds ∅ 0 guarded_include_tokens (lit ".") (lit "GREET")
              (with_macros [(lit "GREET", macro_GREET)])) as [H1 H2].
  split; [apply H1; reflexivity | apply H2].
  unfold with_macros. simpl. set_solver.
Defined.
